(** * InfiniBand device utilities of the Incus device layer

    A shallow embedding of [internal/server/device/device_utils_infiniband.go]
    and the properties of its address validators, port/VF matcher, GUID
    accessors, hardware-address setter, snapshot/restore recorder and
    device-node provisioner.

    Conventions of the embedding:
    - a Go [string] is a [string] of bytes, [len] is [String.length];
    - a Go [int] is a [Z], the [uint64] port number of a port is an [N];
    - a Go [map[string]T] is a [gmap string T]; reading a missing key of a
      [map[string]string] gives the empty string ([map_index]); the maps
      handed to these functions are allocated (not [nil]);
    - a Go [error] is an [option error], [None] being [nil];
    - functions that talk to the host run in the monad [M], which threads
      the host state and records every call to an external collaborator. *)

From Stdlib Require Import ZArith NArith Ascii String List Bool Lia DecimalString DecimalPos.
From stdpp Require Import base option gmap strings list fin_maps.

Local Open Scope string_scope.
Local Open Scope Z_scope.

(** ** Go values: errors, results, strings *)

Module Go.

(** [error] values.  [Errorf] keeps the format and its operands as
    [fmt.Errorf] receives them; [AddrError] and [NumError] are the error
    types of [net.ParseMAC] and [strconv.ParseUint]; [HostError] is an
    error produced by an external collaborator (file system, link control,
    device setup). *)
Inductive error : Type :=
| Errorf (format : string) (args : list fmtArg)
| AddrError (Err : string) (Addr : string)
| NumError (Func : string) (Num : string) (Err : string)
| HostError (descr : string)
with fmtArg : Type :=
| ArgString (s : string)
| ArgInt (z : Z)
| ArgError (e : error).

(** A Go pair [(value, err)] in which exactly one side is meaningful. *)
Inductive result (A : Type) : Type :=
| Ok (a : A)
| Fail (e : error).
Arguments Ok {A} a.
Arguments Fail {A} e.

Definition is_ok {A} (r : result A) : bool :=
  match r with Ok _ => true | Fail _ => false end.

(** The double-quote character, for the formats that contain it. *)
Definition dq : string := String (ascii_of_nat 34) EmptyString.

(** [s[i]] as a byte value. *)
Definition byte_of (c : ascii) : Z := Z.of_N (N_of_ascii c).

(** [s[x:]] for [x <= len(s)]. *)
Fixpoint drop_string (x : nat) (s : string) : string :=
  match x, s with
  | O, _ => s
  | S x', String _ r => drop_string x' r
  | S _, EmptyString => EmptyString
  end.

(** [s[:n]]; [None] when [n > len(s)], where Go panics. *)
Fixpoint take_string (n : nat) (s : string) : option string :=
  match n, s with
  | O, _ => Some EmptyString
  | S n', String c r => option_map (String c) (take_string n' r)
  | S _, EmptyString => None
  end.

(** [strings.ContainsAny(s, chars)] for ASCII [chars]. *)
Fixpoint contains_byte (chars : string) (c : ascii) : bool :=
  match chars with
  | EmptyString => false
  | String d r => if Ascii.eqb c d then true else contains_byte r c
  end.

Fixpoint ContainsAny (s chars : string) : bool :=
  match s with
  | EmptyString => false
  | String c r => if contains_byte chars c then true else ContainsAny r chars
  end.

(** [fmt.Sprintf("%d", z)]. *)
Definition Sprintf_d (z : Z) : string := NilZero.string_of_int (Z.to_int z).

End Go.
Export Go.

(** ** [net.ParseMAC] (Go standard library) *)

Module Net.

Definition HardwareAddr : Type := list Z.

Definition big : Z := 16777215 (* 0xFFFFFF *).

(** [xtoi]: hexadecimal to integer; returns number, characters consumed,
    success.  [n] and [i] are the loop variables. *)
Fixpoint xtoi_loop (s : string) (n : Z) (i : nat) : Z * nat * bool :=
  match s with
  | EmptyString => if Nat.eqb i 0 then (0, i, false) else (n, i, true)
  | String ch rest =>
      let c := byte_of ch in
      let stop := if Nat.eqb i 0 then (0, i, false) else (n, i, true) in
      let next (n' : Z) :=
        if big <=? n' then (0, i, false) else xtoi_loop rest n' (S i) in
      if (48 <=? c) && (c <=? 57) then next (n * 16 + (c - 48))
      else if (97 <=? c) && (c <=? 102) then next (n * 16 + (c - 97) + 10)
      else if (65 <=? c) && (c <=? 70) then next (n * 16 + (c - 65) + 10)
      else stop
  end.

Definition xtoi (s : string) : Z * nat * bool := xtoi_loop s 0 0%nat.

(** [xtoi2(s, e)]: the next two hex digits of [s] as a byte; if [s] is
    longer than two bytes the third must be [e].  Every caller passes at
    least two bytes, so [s[:2]] is in range. *)
Definition xtoi2 (s : string) (e : ascii) : Z * bool :=
  let bad_sep :=
    match String.get 2 s with
    | Some c => negb (Ascii.eqb c e)
    | None => false
    end in
  if (2 <? String.length s)%nat && bad_sep then (0, false)
  else
    let '(n, ei, ok) := xtoi (String.substring 0 2 s) in
    (n mod 256, ok && Nat.eqb ei 2).

(** The loop of the [:]/[-] form: [k] bytes left to read, [x] the offset. *)
Fixpoint colon_loop (s : string) (e : ascii) (k : nat) (x : nat)
  : option HardwareAddr :=
  match k with
  | O => Some []
  | S k' =>
      match xtoi2 (drop_string x s) e with
      | (b, true) => option_map (cons b) (colon_loop s e k' (x + 3))
      | (_, false) => None
      end
  end.

(** The loop of the dotted form: [k] groups of two bytes left to read. *)
Fixpoint dot_loop (s : string) (e : ascii) (k : nat) (x : nat)
  : option HardwareAddr :=
  match k with
  | O => Some []
  | S k' =>
      match xtoi2 (String.substring x 2 s) zero with
      | (b0, true) =>
          match xtoi2 (drop_string (x + 2) s) e with
          | (b1, true) =>
              option_map (fun hw => b0 :: b1 :: hw) (dot_loop s e k' (x + 5))
          | (_, false) => None
          end
      | (_, false) => None
      end
  end.

Definition byte_count_ok (n : nat) : bool :=
  Nat.eqb n 6 || Nat.eqb n 8 || Nat.eqb n 20.

Definition invalid_MAC (s : string) : result HardwareAddr :=
  Fail (AddrError "invalid MAC address" s).

Definition of_loop (s : string) (r : option HardwareAddr) : result HardwareAddr :=
  match r with
  | Some hw => Ok hw
  | None => invalid_MAC s
  end.

Definition ParseMAC (s : string) : result HardwareAddr :=
  let len := String.length s in
  if (len <? 14)%nat then invalid_MAC s
  else
    match String.get 2 s, String.get 4 s with
    | Some s2, Some s4 =>
        if Ascii.eqb s2 ":" || Ascii.eqb s2 "-" then
          if negb (Nat.eqb ((len + 1) mod 3) 0) then invalid_MAC s
          else
            let n := ((len + 1) / 3)%nat in
            if negb (byte_count_ok n) then invalid_MAC s
            else of_loop s (colon_loop s s2 n 0)
        else if Ascii.eqb s4 "." then
          if negb (Nat.eqb ((len + 1) mod 5) 0) then invalid_MAC s
          else
            let n := (2 * (len + 1) / 5)%nat in
            if negb (byte_count_ok n) then invalid_MAC s
            else of_loop s (dot_loop s s4 (n / 2) 0)
        else invalid_MAC s
    | _, _ => invalid_MAC s
    end.

End Net.

(** ** Address format validators *)

(** [infinibandValidMAC]: short (8 bytes) and long (20 bytes) variants. *)
Definition infinibandValidMAC (value : string) : option error :=
  let r := Net.ParseMAC value in
  if negb (is_ok r)
     || (negb (Nat.eqb (String.length value) 23)
         && negb (Nat.eqb (String.length value) 59))
     || ContainsAny value "-."
  then Some (Errorf "Invalid value, must be either 8 or 20 bytes of hex separated by colons" [])
  else None.

(** [infinibandValidGUID]: node_guid or port_guid, 8 bytes. *)
Definition infinibandValidGUID (value : string) : option error :=
  let r := Net.ParseMAC value in
  if negb (is_ok r)
     || negb (Nat.eqb (String.length value) 23)
     || ContainsAny value "-."
  then Some (Errorf "Invalid value, must be 8 bytes of hex separated by colons" [])
  else None.

(** ** [strconv.ParseUint(s, 10, 32)] (Go standard library) *)

Module Strconv.

Definition syntaxError (s : string) : error := NumError "ParseUint" s "invalid syntax".
Definition rangeError (s : string) : error := NumError "ParseUint" s "value out of range".

Definition maxUint64 : Z := 2 ^ 64 - 1.
Definition cutoff10 : Z := maxUint64 / 10 + 1.
Definition maxVal32 : Z := 2 ^ 32 - 1.

(** The digit loop for base 10 and bit size 32; [s0] is the whole input,
    [n] the value read so far. *)
Fixpoint ParseUint_loop (s0 s : string) (n : Z) : result Z :=
  match s with
  | EmptyString => Ok n
  | String ch rest =>
      let c := byte_of ch in
      if (48 <=? c) && (c <=? 57) then
        let d := c - 48 in
        if cutoff10 <=? n then Fail (rangeError s0)
        else
          let n1 := n * 10 + d in
          if maxVal32 <? n1 then Fail (rangeError s0)
          else ParseUint_loop s0 rest n1
      else Fail (syntaxError s0)
  end.

Definition ParseUint_10_32 (s : string) : result Z :=
  match s with
  | EmptyString => Fail (syntaxError s)
  | _ => ParseUint_loop s s 0
  end.

End Strconv.

(** [int(v)] for a [uint64] below [2^32], on a platform with 64-bit [int]. *)
Definition int_of_uint (v : Z) : Z := v.

(** ** The host: external collaborators, events and the monad *)

(** Every call that leaves this file is recorded, with its arguments. *)
Inductive Event : Type :=
| EvReadFile (path : string)
| EvNetworkGetDevMAC (dev : string)
| EvNetworkSetDevMAC (dev hwaddr : string)
| EvLinkSetNodeGUID (link : string) (guid : Net.HardwareAddr) (vf : Z)
| EvLinkSetPortGUID (link : string) (guid : Net.HardwareAddr) (vf : Z)
| EvUnixDeviceSetup (devicesPath prefix deviceName : string)
                    (device : gmap string string) (defaultMode : bool).

(** The collaborators, as operations on a host state [W].  [s *state.State]
    and [runConf *deviceConfig.RunConfig], which this file only hands over
    to [unixDeviceSetup], are part of [W]. *)
Class Host (W : Type) : Type := {
  os_ReadFile : string -> W -> result string * W;
  strings_TrimSpace : string -> string;
  host_NetworkGetDevMAC : string -> W -> result string * W;
  host_NetworkSetDevMAC : string -> string -> W -> option error * W;
  link_SetNodeGUID : string -> Net.HardwareAddr -> Z -> W -> option error * W;
  link_SetPortGUID : string -> Net.HardwareAddr -> Z -> W -> option error * W;
  host_unixDeviceSetup :
    string -> string -> string -> gmap string string -> bool -> W -> option error * W
}.

Record St (W : Type) : Type := mkSt { world : W; trace : list Event }.
Arguments mkSt {W} world trace.
Arguments world {W} s.
Arguments trace {W} s.

(** A call either returns or panics (a Go run-time panic). *)
Inductive outcome (A : Type) : Type :=
| Returned (a : A)
| Panicked (msg : string).
Arguments Returned {A} a.
Arguments Panicked {A} msg.

Definition M (W A : Type) : Type := St W -> outcome A * St W.

Definition ret {W A} (a : A) : M W A := fun s => (Returned a, s).

Definition bind {W A B} (m : M W A) (k : A -> M W B) : M W B :=
  fun s =>
    match m s with
    | (Returned a, s') => k a s'
    | (Panicked msg, s') => (Panicked msg, s')
    end.

Definition panic {W A} (msg : string) : M W A := fun s => (Panicked msg, s).

(** A call to a collaborator: record the event, then let the host act. *)
Definition call {W A} (ev : Event) (op : W -> A * W) : M W A :=
  fun s =>
    let '(a, w') := op (world s) in
    (Returned a, mkSt w' (trace s ++ [ev])).

Notation "'let*' x ':=' m 'in' k" := (bind m (fun x => k))
  (at level 10, x name, m at level 100, k at level 200).

(** [err := m; if err != nil { return err }; k] *)
Notation "'check' m 'in' k" :=
  (bind m (fun err => match err with Some e => ret (Some e) | None => k end))
  (at level 10, m at level 100, k at level 200).

(** Unfolds the monad in a goal. *)
Ltac run_host :=
  unfold bind, ret, call, panic; cbn [world trace fst snd].

(** Reading a [map[string]string]: the zero value for a missing key. *)
Definition map_index (m : gmap string string) (k : string) : string :=
  default "" (m !! k).

Definition nonempty (s : string) : bool := negb (String.eqb s "").

Section Device.
Context {W : Type} `{Host W}.

Definition ReadFile (path : string) : M W (result string) :=
  call (EvReadFile path) (os_ReadFile path).

Definition NetworkGetDevMAC (dev : string) : M W (result string) :=
  call (EvNetworkGetDevMAC dev) (host_NetworkGetDevMAC dev).

Definition NetworkSetDevMAC (dev hwaddr : string) : M W (option error) :=
  call (EvNetworkSetDevMAC dev hwaddr) (host_NetworkSetDevMAC dev hwaddr).

Definition Link_SetNodeGUID (name : string) (guid : Net.HardwareAddr) (vf : Z)
  : M W (option error) :=
  call (EvLinkSetNodeGUID name guid vf) (link_SetNodeGUID name guid vf).

Definition Link_SetPortGUID (name : string) (guid : Net.HardwareAddr) (vf : Z)
  : M W (option error) :=
  call (EvLinkSetPortGUID name guid vf) (link_SetPortGUID name guid vf).

Definition unixDeviceSetup (devicesPath prefix deviceName : string)
    (device : gmap string string) (defaultMode : bool) : M W (option error) :=
  call (EvUnixDeviceSetup devicesPath prefix deviceName device defaultMode)
       (host_unixDeviceSetup devicesPath prefix deviceName device defaultMode).

(** *** GUID accessors *)

Definition node_path (ibDev : string) (vfID : Z) : string :=
  "/sys/class/infiniband/" +:+ ibDev +:+ "/device/sriov/" +:+ Sprintf_d vfID +:+ "/node".

Definition port_path (ibDev : string) (vfID : Z) : string :=
  "/sys/class/infiniband/" +:+ ibDev +:+ "/device/sriov/" +:+ Sprintf_d vfID +:+ "/port".

Definition infinibandGetVFNodeGUID (ibDev : string) (vfID : Z) : M W (result string) :=
  let* r := ReadFile (node_path ibDev vfID) in
  match r with
  | Fail err => ret (Fail err)
  | Ok content => ret (Ok (strings_TrimSpace content))
  end.

Definition infinibandSetVFNodeGUID (ibDev : string) (vfID : Z) (nodeGUID : string)
  : M W (option error) :=
  let* r := infinibandGetVFNodeGUID ibDev vfID in
  match r with
  | Fail err => ret (Some err)
  | Ok curGUID =>
      if negb (String.eqb curGUID nodeGUID) then
        match Net.ParseMAC nodeGUID with
        | Fail err =>
            ret (Some (Errorf "Failed parsing node_guid %q: %w"
                              [ArgString nodeGUID; ArgError err]))
        | Ok guid =>
            check Link_SetNodeGUID ibDev guid vfID in
            ret None
        end
      else ret None
  end.

Definition infinibandGetVFPortGUID (ibDev : string) (vfID : Z) : M W (result string) :=
  let* r := ReadFile (port_path ibDev vfID) in
  match r with
  | Fail err => ret (Fail err)
  | Ok content => ret (Ok (strings_TrimSpace content))
  end.

Definition infinibandSetVFPortGUID (ibDev : string) (vfID : Z) (portGUID : string)
  : M W (option error) :=
  let* r := infinibandGetVFPortGUID ibDev vfID in
  match r with
  | Fail err => ret (Some err)
  | Ok curGUID =>
      if negb (String.eqb curGUID portGUID) then
        match Net.ParseMAC portGUID with
        | Fail err =>
            ret (Some (Errorf "Failed parsing port_guid %q: %w"
                              [ArgString portGUID; ArgError err]))
        | Ok guid =>
            check Link_SetPortGUID ibDev guid vfID in
            ret None
        end
      else ret None
  end.

(** *** Hardware-address setter *)

Definition infinibandSetDevMAC (ibDev hwaddr : string) : M W (option error) :=
  if Nat.eqb (String.length hwaddr) 59 then NetworkSetDevMAC ibDev hwaddr
  else if Nat.eqb (String.length hwaddr) 23 then
    let* r := NetworkGetDevMAC ibDev in
    match r with
    | Fail err => ret (Some err)
    | Ok curHwaddr =>
        match take_string 36 curHwaddr with
        | None => panic "slice bounds out of range"
        | Some prefix => NetworkSetDevMAC ibDev (prefix +:+ hwaddr)
        end
    end
  else ret (Some (Errorf "Invalid length" [])).

End Device.

(** ** Inventory types ([shared/api], the fields this file reads) *)

Record ResourcesNetworkCardPortInfiniband : Type := mkInfiniband {
  IsSMName : string;
  MADName : string;
  VerbName : string
}.

Record ResourcesNetworkCardPort : Type := mkPort {
  ID : string;
  Port : N;
  Protocol : string;
  Infiniband : option ResourcesNetworkCardPortInfiniband
}.

(** A card has ports and, when SR-IOV is supported, virtual functions,
    which are cards themselves. *)
Inductive ResourcesNetworkCard : Type :=
| mkCard (ports : list ResourcesNetworkCardPort)
         (sriov : option ResourcesNetworkCardSRIOV)
with ResourcesNetworkCardSRIOV : Type :=
| mkSRIOV (vfs : list ResourcesNetworkCard).

Definition Ports (card : ResourcesNetworkCard) : list ResourcesNetworkCardPort :=
  match card with mkCard ports _ => ports end.

Definition SRIOV (card : ResourcesNetworkCard) : option ResourcesNetworkCardSRIOV :=
  match card with mkCard _ sriov => sriov end.

Definition VFs (sriov : ResourcesNetworkCardSRIOV) : list ResourcesNetworkCard :=
  match sriov with mkSRIOV vfs => vfs end.

Record ResourcesNetwork : Type := mkNetwork {
  Cards : list ResourcesNetworkCard
}.

Definition IBDevPrefix : string := "infiniband.unix".

Section Lifecycle.
Context {W : Type} `{Host W}.

(** *** Device-node provisioner *)

Definition infinibandAddDevices (devicesPath deviceName : string)
    (ibDev : ResourcesNetworkCardPort) : M W (option error) :=
  match Infiniband ibDev with
  | None => ret (Some (Errorf "No infiniband devices supplied" []))
  | Some ib =>
      check (if nonempty (IsSMName ib) then
               let device : gmap string string :=
                 {[ "source" := "/dev/infiniband/" +:+ IsSMName ib ]} in
               unixDeviceSetup devicesPath IBDevPrefix deviceName device false
             else ret None) in
      check (if nonempty (MADName ib) then
               let device : gmap string string :=
                 {[ "source" := "/dev/infiniband/" +:+ MADName ib ]} in
               unixDeviceSetup devicesPath IBDevPrefix deviceName device false
             else ret None) in
      check (if nonempty (VerbName ib) then
               let device : gmap string string :=
                 {[ "source" := "/dev/infiniband/" +:+ VerbName ib ]} in
               unixDeviceSetup devicesPath IBDevPrefix deviceName device false
             else ret None) in
      ret None
  end.

(** *** Snapshot and restore of the GUIDs

    [volatile] is a Go map handed over by reference: snapshot returns the
    map as it leaves it, next to its [error]; restore only reads it. *)

Definition infinibandSnapshotGUIDs (hostName : string) (vfID : Z)
    (volatile : gmap string string) : M W (gmap string string * option error) :=
  let volatile := <[ "last_state.vf.id" := Sprintf_d vfID ]> volatile in
  let* r := infinibandGetVFNodeGUID hostName vfID in
  match r with
  | Fail err => ret (volatile, Some err)
  | Ok nodeGUID =>
      let* r := infinibandGetVFPortGUID hostName vfID in
      match r with
      | Fail err => ret (volatile, Some err)
      | Ok portGUID =>
          let volatile := <[ "last_state.vf.node_guid" := nodeGUID ]> volatile in
          let volatile := <[ "last_state.vf.port_guid" := portGUID ]> volatile in
          ret (volatile, None)
      end
  end.

Definition infinibandRestoreGUIDs (hostName : string)
    (volatile : gmap string string) : M W (option error) :=
  if nonempty (map_index volatile "last_state.vf.id") then
    match Strconv.ParseUint_10_32 (map_index volatile "last_state.vf.id") with
    | Fail err =>
        ret (Some (Errorf
          ("Failed to convert vfID for " +:+ dq +:+ "%s" +:+ dq +:+ " vfID "
             +:+ dq +:+ "%s" +:+ dq +:+ ": %w")
          [ArgString hostName;
           ArgString (map_index volatile "last_state.vf.id");
           ArgError err]))
    | Ok vfID =>
        let* err :=
          (if nonempty (map_index volatile "last_state.vf.node_guid") then
             infinibandSetVFNodeGUID hostName (int_of_uint vfID)
               (map_index volatile "last_state.vf.node_guid")
           else ret None) in
        match err with
        | Some err =>
            ret (Some (Errorf
              ("Failed to restore device " +:+ dq +:+ "%s" +:+ dq
                 +:+ " (VF %d) node_guid to " +:+ dq +:+ "%s" +:+ dq +:+ ": %w")
              [ArgString hostName; ArgInt (int_of_uint vfID);
               ArgString (map_index volatile "last_state.vf.node_guid");
               ArgError err]))
        | None =>
            let* err :=
              (if nonempty (map_index volatile "last_state.vf.port_guid") then
                 infinibandSetVFPortGUID hostName (int_of_uint vfID)
                   (map_index volatile "last_state.vf.port_guid")
               else ret None) in
            match err with
            | Some err =>
                ret (Some (Errorf
                  ("Failed to restore device " +:+ dq +:+ "%s" +:+ dq
                     +:+ " (VF %d) port_guid to " +:+ dq +:+ "%s" +:+ dq +:+ ": %w")
                  [ArgString hostName; ArgInt (int_of_uint vfID);
                   ArgString (map_index volatile "last_state.vf.port_guid");
                   ArgError err]))
            | None => ret None
            end
        end
    end
  else ret None.

End Lifecycle.

(** ** Port/VF matcher

    The loop variables [port] are per-iteration values (Go 1.22 and later),
    so each map entry holds the port it was stored for. *)

(** The loop over the ports of a card. *)
Definition scanPorts (parent : string) (ports : list ResourcesNetworkCardPort)
    (ibDevs : gmap string ResourcesNetworkCardPort)
  : gmap string ResourcesNetworkCardPort :=
  foldl (fun ibDevs port =>
           if negb (String.eqb (Protocol port) "infiniband") then ibDevs
           else if negb (String.eqb (ID port) parent) then ibDevs
           else <[ ID port := port ]> ibDevs)
        ibDevs ports.

(** The loop over the ports of one virtual function. *)
Definition scanVFPorts (parent : string)
    (parentDev : option ResourcesNetworkCardPort)
    (ports : list ResourcesNetworkCardPort)
    (ibDevs : gmap string ResourcesNetworkCardPort)
  : gmap string ResourcesNetworkCardPort :=
  foldl (fun ibDevs port =>
           if negb (String.eqb (Protocol port) "infiniband") then ibDevs
           else
             match parentDev with
             | Some dev =>
                 (* parentIsPF && parentDev.Port != port.Port *)
                 if negb (N.eqb (Port dev) (Port port)) then ibDevs
                 else <[ ID port := port ]> ibDevs
             | None =>
                 (* !parentIsPF && port.ID != parent *)
                 if negb (String.eqb (ID port) parent) then ibDevs
                 else <[ ID port := port ]> ibDevs
             end)
        ibDevs ports.

(** The body of the loop over the cards. *)
Definition scanCard (parent : string)
    (ibDevs : gmap string ResourcesNetworkCardPort)
    (card : ResourcesNetworkCard) : gmap string ResourcesNetworkCardPort :=
  let ibDevs := scanPorts parent (Ports card) ibDevs in
  match SRIOV card with
  | None => ibDevs
  | Some sriov =>
      (* parentDev, parentIsPF := ibDevs[parent] *)
      let parentDev := ibDevs !! parent in
      foldl (fun ibDevs VF => scanVFPorts parent parentDev (Ports VF) ibDevs)
            ibDevs (VFs sriov)
  end.

Definition infinibandDevices (nics : ResourcesNetwork) (parent : string)
  : gmap string ResourcesNetworkCardPort :=
  foldl (scanCard parent) ∅ (Cards nics).

(** ** Specification-side definitions *)

(** Running a call twice in a row. *)
Definition twice {W A} (m : M W A) : M W A := let* _ := m in m.

(** The events a computation adds to the trace of [s]. *)
Definition events_of {W A} (m : M W A) (s : St W) : list Event :=
  drop (length (trace s)) (trace (snd (m s))).

(** The state after a file read that left the host in [w]. *)
Definition after_read {W} (path : string) (w : W) (s : St W) : St W :=
  mkSt w (trace s ++ [EvReadFile path]).

(** Some card of the inventory has an InfiniBand port of its own (a PF
    port) with this name. *)
Definition named_as_PF (parent : string) (nics : ResourcesNetwork) : bool :=
  existsb (fun card =>
             existsb (fun port => String.eqb (Protocol port) "infiniband"
                                  && String.eqb (ID port) parent)
                     (Ports card))
          (Cards nics).

(** A hardware write through link control. *)
Definition is_guid_write (ev : Event) : bool :=
  match ev with
  | EvLinkSetNodeGUID _ _ _ | EvLinkSetPortGUID _ _ _ => true
  | _ => false
  end.

Definition guid_writes (evs : list Event) : nat :=
  length (filter (fun ev => is_guid_write ev = true) evs).

Definition is_device_setup (ev : Event) : bool :=
  match ev with
  | EvUnixDeviceSetup _ _ _ _ _ => true
  | _ => false
  end.

Definition device_setups (evs : list Event) : nat :=
  length (filter (fun ev => is_device_setup ev = true) evs).

(** The device-setup call for one sub-interface name. *)
Definition setup_event (devicesPath deviceName name : string) : Event :=
  EvUnixDeviceSetup devicesPath IBDevPrefix deviceName
    {[ "source" := "/dev/infiniband/" +:+ name ]} false.

(** Provisioning as the specification words it: one device-setup call per
    name, in order, stopping at the first error. *)
Fixpoint provision_in_order {W} `{Host W} (devicesPath deviceName : string)
    (names : list string) : M W (option error) :=
  match names with
  | [] => ret None
  | name :: rest =>
      check unixDeviceSetup devicesPath IBDevPrefix deviceName
              {[ "source" := "/dev/infiniband/" +:+ name ]} false in
      provision_in_order devicesPath deviceName rest
  end.

Definition present_names (ib : ResourcesNetworkCardPortInfiniband) : list string :=
  List.filter nonempty [IsSMName ib; MADName ib; VerbName ib].

(** [n] hex pairs separated by colons. *)
Definition is_hex (c : ascii) : bool :=
  let b := byte_of c in
  ((48 <=? b) && (b <=? 57)) || ((97 <=? b) && (b <=? 102))
  || ((65 <=? b) && (b <=? 70)).

Fixpoint colon_hex (n : nat) (s : string) : bool :=
  match n, s with
  | 1%nat, String h1 (String h2 EmptyString) => is_hex h1 && is_hex h2
  | S ((S _) as n'), String h1 (String h2 (String c rest)) =>
      is_hex h1 && is_hex h2 && Ascii.eqb c ":" && colon_hex n' rest
  | _, _ => false
  end.

(** No byte of [s] is a dash or a dot. *)
Definition no_dash_or_dot (s : string) : Prop :=
  forall (i : nat) (c : ascii),
    String.get i s = Some c -> c <> "-"%char /\ c <> "."%char.

(** The filter a VF port went through to be stored. *)
Definition vf_admitted (parent : string)
    (parentDev : option ResourcesNetworkCardPort) (p : ResourcesNetworkCardPort)
  : Prop :=
  Protocol p = "infiniband"
  /\ match parentDev with
     | Some dev => Port dev = Port p
     | None => ID p = parent
     end.

(** The number written by a run of decimal digits read after [acc]. *)
Fixpoint uint_val (d : Decimal.uint) (acc : Z) : Z :=
  match d with
  | Decimal.Nil => acc
  | Decimal.D0 d => uint_val d (acc * 10 + 0)
  | Decimal.D1 d => uint_val d (acc * 10 + 1)
  | Decimal.D2 d => uint_val d (acc * 10 + 2)
  | Decimal.D3 d => uint_val d (acc * 10 + 3)
  | Decimal.D4 d => uint_val d (acc * 10 + 4)
  | Decimal.D5 d => uint_val d (acc * 10 + 5)
  | Decimal.D6 d => uint_val d (acc * 10 + 6)
  | Decimal.D7 d => uint_val d (acc * 10 + 7)
  | Decimal.D8 d => uint_val d (acc * 10 + 8)
  | Decimal.D9 d => uint_val d (acc * 10 + 9)
  end.


(** The error of [infinibandRestoreGUIDs] for a VF index it cannot read. *)
Definition restore_convert_error (hostName : string) (id : string) (err : error)
  : error :=
  Errorf ("Failed to convert vfID for " +:+ dq +:+ "%s" +:+ dq +:+ " vfID "
            +:+ dq +:+ "%s" +:+ dq +:+ ": %w")
         [ArgString hostName; ArgString id; ArgError err].

(** The ports of an inventory: those of the cards and those of their VFs. *)
Definition card_ports (card : ResourcesNetworkCard) : list ResourcesNetworkCardPort :=
  Ports card
  ++ match SRIOV card with
     | Some sriov => concat (map Ports (VFs sriov))
     | None => []
     end.

Definition inventory_ports (nics : ResourcesNetwork) : list ResourcesNetworkCardPort :=
  concat (map card_ports (Cards nics)).


(** The wrapped errors of [infinibandRestoreGUIDs]. *)
Definition restore_node_error (hostName : string) (vfID : Z) (guid : string)
    (err : error) : error :=
  Errorf ("Failed to restore device " +:+ dq +:+ "%s" +:+ dq
            +:+ " (VF %d) node_guid to " +:+ dq +:+ "%s" +:+ dq +:+ ": %w")
         [ArgString hostName; ArgInt vfID; ArgString guid; ArgError err].

Definition restore_port_error (hostName : string) (vfID : Z) (guid : string)
    (err : error) : error :=
  Errorf ("Failed to restore device " +:+ dq +:+ "%s" +:+ dq
            +:+ " (VF %d) port_guid to " +:+ dq +:+ "%s" +:+ dq +:+ ": %w")
         [ArgString hostName; ArgInt vfID; ArgString guid; ArgError err].

(** The lease records the VF index and both GUIDs. *)
Definition lease_complete (volatile : gmap string string) : Prop :=
  map_index volatile "last_state.vf.id" <> ""
  /\ map_index volatile "last_state.vf.node_guid" <> ""
  /\ map_index volatile "last_state.vf.port_guid" <> "".

(** "Both restores are attempted": the node and the port GUID of the
    recorded VF are both read back, which is how each set operation starts. *)
Definition restore_attempts_both {W} `{Host W} (hostName : string)
    (volatile : gmap string string) (s : St W) : Prop :=
  exists vfID,
    Strconv.ParseUint_10_32 (map_index volatile "last_state.vf.id") = Ok vfID
    /\ EvReadFile (node_path hostName vfID)
         ∈ events_of (infinibandRestoreGUIDs hostName volatile) s
    /\ EvReadFile (port_path hostName vfID)
         ∈ events_of (infinibandRestoreGUIDs hostName volatile) s.

(** ** A simulated host, for concrete runs *)

Module Sim.

Record World : Type := mkWorld {
  sysfs : gmap string string;       (* readable files and their content *)
  macs : gmap string string;        (* link name -> hardware address *)
  link_down : bool;                 (* link control refuses GUID writes *)
  bad_sources : list string;        (* device sources that cannot be set up *)
  created : list string             (* device sources set up so far *)
}.

Definition hex_digit (d : Z) : ascii :=
  if d <? 10 then ascii_of_N (Z.to_N (48 + d)) else ascii_of_N (Z.to_N (87 + d)).

Definition hex_pair (b : Z) : string :=
  String (hex_digit (b / 16)) (String (hex_digit (b mod 16)) EmptyString).

Fixpoint format_guid (hw : list Z) : string :=
  match hw with
  | [] => EmptyString
  | [b] => hex_pair b
  | b :: rest => hex_pair b +:+ ":" +:+ format_guid rest
  end.

Definition newline : string := String (ascii_of_nat 10) EmptyString.

Definition is_space (c : ascii) : bool :=
  let b := byte_of c in ((9 <=? b) && (b <=? 13)) || (b =? 32).

Fixpoint trim_left (s : string) : string :=
  match s with
  | String c r => if is_space c then trim_left r else s
  | EmptyString => EmptyString
  end.

Fixpoint trim_right (s : string) : string :=
  match s with
  | EmptyString => EmptyString
  | String c r =>
      let r' := trim_right r in
      if is_space c && String.eqb r' EmptyString then EmptyString else String c r'
  end.

Definition read_file (path : string) (w : World) : result string * World :=
  match sysfs w !! path with
  | Some content => (Ok content, w)
  | None => (Fail (HostError "no such file or directory"), w)
  end.

Definition get_mac (dev : string) (w : World) : result string * World :=
  match macs w !! dev with
  | Some a => (Ok a, w)
  | None => (Fail (HostError "no such device"), w)
  end.

Definition set_mac (dev hwaddr : string) (w : World) : option error * World :=
  (None, mkWorld (sysfs w) (<[dev := hwaddr]> (macs w)) (link_down w)
                 (bad_sources w) (created w)).

Definition write_guid (file : string) (guid : list Z) (w : World)
  : option error * World :=
  if link_down w then (Some (HostError "operation not supported"), w)
  else (None, mkWorld (<[file := format_guid guid +:+ newline]> (sysfs w))
                      (macs w) (link_down w) (bad_sources w) (created w)).

Definition node_file (dev : string) (vf : Z) : string :=
  "/sys/class/infiniband/" +:+ dev +:+ "/device/sriov/" +:+ Sprintf_d vf +:+ "/node".

Definition port_file (dev : string) (vf : Z) : string :=
  "/sys/class/infiniband/" +:+ dev +:+ "/device/sriov/" +:+ Sprintf_d vf +:+ "/port".

Definition setup (devicesPath prefix deviceName : string)
    (device : gmap string string) (defaultMode : bool) (w : World)
  : option error * World :=
  let source := default "" (device !! "source") in
  if existsb (String.eqb source) (bad_sources w)
  then (Some (HostError "cannot create device node"), w)
  else (None, mkWorld (sysfs w) (macs w) (link_down w) (bad_sources w)
                      (created w ++ [source])).

#[global] Instance host : Host World := {
  os_ReadFile := read_file;
  strings_TrimSpace := fun s => trim_right (trim_left s);
  host_NetworkGetDevMAC := get_mac;
  host_NetworkSetDevMAC := set_mac;
  link_SetNodeGUID := fun dev guid vf => write_guid (node_file dev vf) guid;
  link_SetPortGUID := fun dev guid vf => write_guid (port_file dev vf) guid;
  host_unixDeviceSetup := setup
}.

Definition start (w : World) : St World := mkSt w [].

(** A host with one device [mlx5_0] whose VF 3 has both GUID files. *)
Definition healthy : World :=
  mkWorld {[ node_file "mlx5_0" 3 := "11:22:33:44:55:66:77:88" +:+ newline;
             port_file "mlx5_0" 3 := "99:aa:bb:cc:dd:ee:ff:00" +:+ newline ]}
          {[ "ib0" := "a0:00:0f:c0:fe:80:00:00:00:00:00:00:4a:c8:f9:1b:aa:57:ef:19" ]}
          false [] [].

(** The same host when the node GUID file of VF 3 cannot be read. *)
Definition node_unreadable : World :=
  mkWorld {[ port_file "mlx5_0" 3 := "99:aa:bb:cc:dd:ee:ff:00" +:+ newline ]}
          ∅ false [] [].

(** A link whose reported hardware address is shorter than 36 bytes. *)
Definition short_mac : World :=
  mkWorld ∅ {[ "eth0" := "00:16:3e:aa:bb:cc" ]} false [] [].

(** A recorded lease of VF 3 with both GUIDs. *)
Definition lease : gmap string string :=
  {[ "last_state.vf.id" := "3";
     "last_state.vf.node_guid" := "4a:c8:f9:1b:aa:57:ef:19";
     "last_state.vf.port_guid" := "4a:c8:f9:1b:aa:57:ef:1a" ]}.

(** Inventories.  Card X: PF [p1] on port 1 with VFs [v1] (port 1) and
    [v2] (port 2).  Card Y: PF [q1] on port 1 with VFs [w1], [w2]. *)
Definition ib_port (id : string) (port : N) : ResourcesNetworkCardPort :=
  mkPort id port "infiniband" (Some (mkInfiniband "issm0" "" "uverbs0")).

Definition vf_card (p : ResourcesNetworkCardPort) : ResourcesNetworkCard :=
  mkCard [p] None.

Definition cardX : ResourcesNetworkCard :=
  mkCard [ib_port "p1" 1]
         (Some (mkSRIOV [vf_card (ib_port "v1" 1); vf_card (ib_port "v2" 2)])).

Definition cardY : ResourcesNetworkCard :=
  mkCard [ib_port "q1" 1]
         (Some (mkSRIOV [vf_card (ib_port "w1" 1); vf_card (ib_port "w2" 2)])).

Definition one_card : ResourcesNetwork := mkNetwork [cardX].
Definition two_cards : ResourcesNetwork := mkNetwork [cardX; cardY].

End Sim.

(** * Properties *)

(** ** Address format validators *)

Section Validators.

Lemma xtoi_loop_hex (h : ascii) (rest : string) (n : Z) (i : nat) :
  is_hex h = true -> 0 <= n -> n * 16 + 15 < Net.big ->
  exists d, 0 <= d < 16
            /\ Net.xtoi_loop (String h rest) n i = Net.xtoi_loop rest (n * 16 + d) (S i).
Proof.
  unfold is_hex. intros Hh Hn Hbig. cbn [Net.xtoi_loop].
  set (c := byte_of h) in *.
  destruct (48 <=? c) eqn:E1, (c <=? 57) eqn:E2; cbn [andb orb] in *.
  1: { exists (c - 48). split; [lia|].
       destruct (Net.big <=? n * 16 + (c - 48)) eqn:E; [lia | reflexivity]. }
  all: destruct (97 <=? c) eqn:E3, (c <=? 102) eqn:E4; cbn [andb orb] in *.
  all: try (exists (c - 97 + 10); split; [lia|];
            replace (n * 16 + (c - 97) + 10) with (n * 16 + (c - 97 + 10)) by lia;
            destruct (Net.big <=? n * 16 + (c - 97 + 10)) eqn:E; [lia | reflexivity]).
  all: destruct (65 <=? c) eqn:E5, (c <=? 70) eqn:E6; cbn [andb orb] in *;
    try discriminate.
  all: try (exists (c - 65 + 10); split; [lia|];
            replace (n * 16 + (c - 65) + 10) with (n * 16 + (c - 65 + 10)) by lia;
            destruct (Net.big <=? n * 16 + (c - 65 + 10)) eqn:E; [lia | reflexivity]).
  all: lia.
Qed.

Lemma xtoi_hex_pair (h1 h2 : ascii) :
  is_hex h1 = true -> is_hex h2 = true ->
  exists v, Net.xtoi (String h1 (String h2 EmptyString)) = (v, 2%nat, true).
Proof.
  intros H1 H2. unfold Net.xtoi.
  destruct (xtoi_loop_hex h1 (String h2 EmptyString) 0 0 H1) as (d1 & Hd1 & ->);
    [lia | unfold Net.big; lia |].
  destruct (xtoi_loop_hex h2 EmptyString (0 * 16 + d1) 1 H2) as (d2 & Hd2 & ->);
    [lia | unfold Net.big; lia |].
  eexists. reflexivity.
Qed.

Lemma xtoi2_last_pair (h1 h2 e : ascii) :
  is_hex h1 = true -> is_hex h2 = true ->
  exists b, Net.xtoi2 (String h1 (String h2 EmptyString)) e = (b, true).
Proof.
  intros H1 H2. destruct (xtoi_hex_pair h1 h2 H1 H2) as [v Hv].
  unfold Net.xtoi2. cbn [String.length String.get Nat.ltb Nat.leb andb String.substring].
  rewrite Hv. eexists. reflexivity.
Qed.

Lemma xtoi2_inner_pair (h1 h2 e : ascii) (rest : string) :
  is_hex h1 = true -> is_hex h2 = true ->
  exists b, Net.xtoi2 (String h1 (String h2 (String e rest))) e = (b, true).
Proof.
  intros H1 H2. destruct (xtoi_hex_pair h1 h2 H1 H2) as [v Hv].
  unfold Net.xtoi2. cbn [String.get]. rewrite Ascii.eqb_refl.
  cbn [negb]. rewrite andb_false_r.
  cbn [String.substring]. rewrite Hv. eexists. reflexivity.
Qed.

Lemma drop_string_add (x y : nat) (s : string) :
  drop_string (x + y) s = drop_string y (drop_string x s).
Proof.
  revert s. induction x as [|x IH]; intros s; [reflexivity|].
  destruct s as [|c r]; cbn [Nat.add drop_string]; [|apply IH].
  destruct y; reflexivity.
Qed.

Lemma colon_loop_colon_hex (s : string) (k x : nat) :
  colon_hex k (drop_string x s) = true ->
  exists hw, Net.colon_loop s ":" k x = Some hw.
Proof.
  revert x. induction k as [|k IH]; intros x Hk; [discriminate|].
  cbn [Net.colon_loop].
  destruct (drop_string x s) as [|h1 [|h2 t]] eqn:Ed;
    try (destruct k; discriminate).
  destruct k as [|k].
  - destruct t; [|discriminate]. cbn in Hk.
    apply andb_true_iff in Hk as [H1 H2].
    destruct (xtoi2_last_pair h1 h2 ":" H1 H2) as [b ->].
    cbn. eexists. reflexivity.
  - destruct t as [|c rest]; [discriminate|].
    cbn [colon_hex] in Hk.
    apply andb_true_iff in Hk as [Hk Hrest].
    apply andb_true_iff in Hk as [Hk Hc].
    apply andb_true_iff in Hk as [H1 H2].
    apply Ascii.eqb_eq in Hc. subst c.
    destruct (xtoi2_inner_pair h1 h2 ":" rest H1 H2) as [b ->].
    destruct (IH (x + 3)%nat) as [hw ->].
    + rewrite drop_string_add, Ed. exact Hrest.
    + eexists. reflexivity.
Qed.

Lemma colon_hex_length (k : nat) (s : string) :
  colon_hex k s = true -> String.length s = (3 * k - 1)%nat.
Proof.
  revert s. induction k as [|k IH]; intros s Hk; [discriminate|].
  destruct s as [|h1 [|h2 t]]; try (destruct k; discriminate).
  destruct k as [|k].
  - destruct t; [reflexivity | discriminate].
  - destruct t as [|c rest]; [discriminate|].
    cbn [colon_hex] in Hk. apply andb_true_iff in Hk as [_ Hrest].
    apply IH in Hrest. cbn [String.length]. rewrite Hrest. lia.
Qed.

Lemma is_hex_not_delimiter (h : ascii) :
  is_hex h = true -> contains_byte "-." h = false.
Proof.
  unfold is_hex. intros Hh. cbn [contains_byte].
  destruct (Ascii.eqb h "-") eqn:E1.
  { apply Ascii.eqb_eq in E1. subst h. discriminate. }
  destruct (Ascii.eqb h ".") eqn:E2.
  { apply Ascii.eqb_eq in E2. subst h. discriminate. }
  reflexivity.
Qed.

Lemma colon_hex_no_delimiter (k : nat) (s : string) :
  colon_hex k s = true -> ContainsAny s "-." = false.
Proof.
  revert s. induction k as [|k IH]; intros s Hk; [discriminate|].
  destruct s as [|h1 [|h2 t]]; try (destruct k; discriminate).
  destruct k as [|k].
  - destruct t; [|discriminate]. cbn in Hk.
    apply andb_true_iff in Hk as [H1 H2].
    cbn [ContainsAny].
    rewrite (is_hex_not_delimiter h1 H1), (is_hex_not_delimiter h2 H2).
    reflexivity.
  - destruct t as [|c rest]; [discriminate|].
    cbn [colon_hex] in Hk.
    apply andb_true_iff in Hk as [Hk Hrest].
    apply andb_true_iff in Hk as [Hk Hc].
    apply andb_true_iff in Hk as [H1 H2].
    apply Ascii.eqb_eq in Hc. subst c.
    cbn [ContainsAny].
    rewrite (is_hex_not_delimiter h1 H1), (is_hex_not_delimiter h2 H2).
    cbn. apply IH, Hrest.
Qed.

(** [net.ParseMAC] accepts 6, 8 or 20 hex pairs separated by colons. *)
Lemma ParseMAC_colon_hex (k : nat) (s : string) :
  Net.byte_count_ok k = true -> colon_hex k s = true ->
  is_ok (Net.ParseMAC s) = true.
Proof.
  intros Hcount Hk.
  pose proof (colon_hex_length k s Hk) as Hlen.
  destruct (colon_loop_colon_hex s k 0 Hk) as [hw Hloop].
  assert (Hk6 : (6 <= k)%nat).
  { unfold Net.byte_count_ok in Hcount.
    repeat (apply orb_true_iff in Hcount as [Hcount|Hcount]);
      apply Nat.eqb_eq in Hcount; lia. }
  unfold Net.ParseMAC. rewrite Hlen.
  destruct (3 * k - 1 <? 14)%nat eqn:E; [apply Nat.ltb_lt in E; lia|].
  destruct s as [|h1 [|h2 [|c [|h3 [|h4 t]]]]];
    try (cbn [String.length] in Hlen; lia).
  destruct k as [|[|k]]; try lia.
  cbn [colon_hex] in Hk.
  apply andb_true_iff in Hk as [Hk _].
  apply andb_true_iff in Hk as [_ Hc].
  apply Ascii.eqb_eq in Hc. subst c.
  cbn [String.get Ascii.eqb Bool.eqb orb andb].
  replace (3 * S (S k) - 1 + 1)%nat with (S (S k) * 3)%nat by lia.
  rewrite Nat.Div0.mod_mul, Nat.div_mul by lia.
  cbn [Nat.eqb negb]. rewrite Hcount. cbn [negb].
  rewrite Hloop. reflexivity.
Qed.

Lemma ContainsAny_dash_dot (s : string) :
  ContainsAny s "-." = false <-> no_dash_or_dot s.
Proof.
  unfold no_dash_or_dot. induction s as [|a r IH]; cbn [ContainsAny contains_byte].
  - split; [intros _ i c Hget; destruct i; discriminate | reflexivity].
  - destruct (Ascii.eqb a "-") eqn:E1.
    { apply Ascii.eqb_eq in E1. subst a. split; [discriminate|].
      intros Hall. destruct (Hall 0%nat "-"%char eq_refl) as [Hne _]. congruence. }
    destruct (Ascii.eqb a ".") eqn:E2.
    { apply Ascii.eqb_eq in E2. subst a. split; [discriminate|].
      intros Hall. destruct (Hall 0%nat "."%char eq_refl) as [_ Hne]. congruence. }
    apply Ascii.eqb_neq in E1, E2. rewrite IH. split.
    + intros Hall [|i] c Hget; cbn [String.get] in Hget.
      * injection Hget as <-. split; assumption.
      * eapply Hall, Hget.
    + intros Hall i c Hget. apply (Hall (S i) c). exact Hget.
Qed.

Lemma infinibandValidMAC_ok (value : string) :
  infinibandValidMAC value = None <->
  is_ok (Net.ParseMAC value) = true
  /\ (String.length value = 23%nat \/ String.length value = 59%nat)
  /\ ContainsAny value "-." = false.
Proof.
  unfold infinibandValidMAC.
  destruct (is_ok (Net.ParseMAC value)); cbn [negb orb].
  2: { split; [discriminate | intros [? _]; discriminate]. }
  destruct (Nat.eqb_spec (String.length value) 23) as [E23|E23];
    destruct (Nat.eqb_spec (String.length value) 59) as [E59|E59];
    cbn [negb andb orb];
    destruct (ContainsAny value "-."); cbn;
    split; intros Hyp; try discriminate; try tauto;
    try (destruct Hyp as (_ & _ & ?); discriminate);
    destruct Hyp as (_ & [?|?] & _); congruence.
Qed.

Lemma infinibandValidGUID_ok (value : string) :
  infinibandValidGUID value = None <->
  is_ok (Net.ParseMAC value) = true
  /\ String.length value = 23%nat
  /\ ContainsAny value "-." = false.
Proof.
  unfold infinibandValidGUID.
  destruct (is_ok (Net.ParseMAC value)); cbn [negb orb].
  2: { split; [discriminate | intros [? _]; discriminate]. }
  destruct (Nat.eqb_spec (String.length value) 23) as [E23|E23];
    cbn [negb andb orb];
    destruct (ContainsAny value "-."); cbn;
    split; intros Hyp; try discriminate; try tauto;
    try (destruct Hyp as (_ & _ & ?); discriminate);
    destruct Hyp as (_ & ? & _); congruence.
Qed.

(** Long-form addresses written as 20 colon-separated hex pairs pass. *)
Lemma infinibandValidMAC_long_form (value : string) :
  colon_hex 20 value = true -> infinibandValidMAC value = None.
Proof.
  intros Hk. apply infinibandValidMAC_ok. split; [|split].
  - now apply (ParseMAC_colon_hex 20).
  - right. now rewrite (colon_hex_length 20 value Hk).
  - now apply (colon_hex_no_delimiter 20).
Qed.

(** C6: [infinibandValidMAC] (ValidateHardwareAddress) returns no error
    exactly when the value parses as a hex-pair address, is 23 or 59 bytes
    long and holds no dash and no dot; in every other case it returns its
    validation error. *)
Theorem infinibandValidMAC_iff (value : string) :
  (infinibandValidMAC value = None <->
   is_ok (Net.ParseMAC value) = true
   /\ (String.length value = 23%nat \/ String.length value = 59%nat)
   /\ no_dash_or_dot value)
  /\ (infinibandValidMAC value = None
      \/ infinibandValidMAC value =
           Some (Errorf "Invalid value, must be either 8 or 20 bytes of hex separated by colons" [])).
Proof.
  split.
  - rewrite infinibandValidMAC_ok, ContainsAny_dash_dot. reflexivity.
  - unfold infinibandValidMAC.
    match goal with |- context [if ?b then _ else _] => destruct b end; auto.
Qed.

(** C7: [infinibandValidGUID] (ValidateGUID) returns no error exactly when
    the value parses as a hex-pair address, is 23 bytes long and holds no
    dash and no dot.  So whatever passes it passes [infinibandValidMAC],
    8 colon-separated hex pairs pass both, and a 59-byte value that passes
    [infinibandValidMAC] (such as 20 colon-separated hex pairs) fails
    [infinibandValidGUID]. *)
Theorem infinibandValidGUID_iff :
  (forall value : string,
     infinibandValidGUID value = None <->
     is_ok (Net.ParseMAC value) = true
     /\ String.length value = 23%nat
     /\ no_dash_or_dot value)
  /\ (forall value : string,
        infinibandValidGUID value = None -> infinibandValidMAC value = None)
  /\ (forall value : string,
        colon_hex 8 value = true ->
        infinibandValidGUID value = None /\ infinibandValidMAC value = None)
  /\ (forall value : string,
        String.length value = 59%nat -> infinibandValidMAC value = None ->
        infinibandValidGUID value <> None)
  /\ (forall value : string,
        colon_hex 20 value = true ->
        infinibandValidMAC value = None /\ infinibandValidGUID value <> None).
Proof.
  assert (Hsub : forall value,
             infinibandValidGUID value = None -> infinibandValidMAC value = None).
  { intros value Hg. apply infinibandValidGUID_ok in Hg as (Hp & Hl & Hd).
    apply infinibandValidMAC_ok. auto. }
  assert (Hlong : forall value,
             String.length value = 59%nat -> infinibandValidGUID value <> None).
  { intros value Hl Hg. apply infinibandValidGUID_ok in Hg as (_ & Hl' & _).
    congruence. }
  split; [|split; [|split; [|split]]].
  - intros value. rewrite infinibandValidGUID_ok, ContainsAny_dash_dot. reflexivity.
  - exact Hsub.
  - intros value Hk.
    assert (Hg : infinibandValidGUID value = None).
    { apply infinibandValidGUID_ok. split; [|split].
      - now apply (ParseMAC_colon_hex 8).
      - now rewrite (colon_hex_length 8 value Hk).
      - now apply (colon_hex_no_delimiter 8). }
    split; [exact Hg | exact (Hsub value Hg)].
  - intros value Hl _. now apply Hlong.
  - intros value Hk. split; [now apply infinibandValidMAC_long_form|].
    apply Hlong. now rewrite (colon_hex_length 20 value Hk).
Qed.

Lemma infinibandValidMAC_iff_witness :
  infinibandValidMAC "4a:c8:f9:1b:aa:57:ef:19" = None
  /\ no_dash_or_dot "a0:00:0f:c0:fe:80:00:00:00:00:00:00:4a:c8:f9:1b:aa:57:ef:19".
Proof.
  split.
  - apply (proj1 (infinibandValidMAC_iff "4a:c8:f9:1b:aa:57:ef:19")).
    split; [reflexivity | split; [left; reflexivity |]].
    apply ContainsAny_dash_dot. reflexivity.
  - apply (proj1 (infinibandValidMAC_iff
             "a0:00:0f:c0:fe:80:00:00:00:00:00:00:4a:c8:f9:1b:aa:57:ef:19")).
    reflexivity.
Defined.

Lemma infinibandValidGUID_iff_witness :
  (infinibandValidGUID "4a:c8:f9:1b:aa:57:ef:19" = None
   /\ infinibandValidMAC "4a:c8:f9:1b:aa:57:ef:19" = None)
  /\ (infinibandValidMAC "a0:00:0f:c0:fe:80:00:00:00:00:00:00:4a:c8:f9:1b:aa:57:ef:19" = None
      /\ infinibandValidGUID "a0:00:0f:c0:fe:80:00:00:00:00:00:00:4a:c8:f9:1b:aa:57:ef:19" <> None).
Proof.
  destruct infinibandValidGUID_iff as (_ & _ & Hshort & _ & Hlong).
  split; [apply Hshort | apply Hlong]; reflexivity.
Defined.

Example valid_short : infinibandValidMAC "4a:c8:f9:1b:aa:57:ef:19" = None.
Proof. reflexivity. Qed.
Example parse_short :
  Net.ParseMAC "4a:c8:f9:1b:aa:57:ef:19" = Ok [74; 200; 249; 27; 170; 87; 239; 25].
Proof. reflexivity. Qed.
Example parse_dotted :
  Net.ParseMAC "0200.5e10.0000.0001" = Ok [2; 0; 94; 16; 0; 0; 0; 1].
Proof. reflexivity. Qed.
Example dashes_parse_but_are_refused :
  is_ok (Net.ParseMAC "02-00-5e-10-00-00-00-01") = true
  /\ infinibandValidGUID "02-00-5e-10-00-00-00-01" <> None.
Proof. split; [reflexivity | discriminate]. Qed.
Example six_bytes_are_refused :
  is_ok (Net.ParseMAC "00:00:5e:00:53:01") = true
  /\ infinibandValidMAC "00:00:5e:00:53:01" <> None.
Proof. split; [reflexivity | discriminate]. Qed.

End Validators.

(** ** Running the monad *)

Lemma events_of_app {W A} (m : M W A) (s : St W) (evs : list Event) :
  trace (snd (m s)) = (trace s ++ evs)%list -> events_of m s = evs.
Proof. unfold events_of. intros ->. apply drop_app_length. Qed.

(** ** GUID accessors *)

Section Accessors.
Context {W : Type} `{Host W}.

Lemma infinibandGetVFNodeGUID_run (ibDev : string) (vfID : Z) (s : St W) :
  infinibandGetVFNodeGUID ibDev vfID s =
  let '(r, w) := os_ReadFile (node_path ibDev vfID) (world s) in
  (Returned match r with
            | Ok content => Ok (strings_TrimSpace content)
            | Fail err => Fail err
            end,
   after_read (node_path ibDev vfID) w s).
Proof.
  unfold infinibandGetVFNodeGUID, ReadFile, after_read. run_host.
  destruct (os_ReadFile _ _) as [[content|err] w]; reflexivity.
Qed.

Lemma infinibandGetVFPortGUID_run (ibDev : string) (vfID : Z) (s : St W) :
  infinibandGetVFPortGUID ibDev vfID s =
  let '(r, w) := os_ReadFile (port_path ibDev vfID) (world s) in
  (Returned match r with
            | Ok content => Ok (strings_TrimSpace content)
            | Fail err => Fail err
            end,
   after_read (port_path ibDev vfID) w s).
Proof.
  unfold infinibandGetVFPortGUID, ReadFile, after_read. run_host.
  destruct (os_ReadFile _ _) as [[content|err] w]; reflexivity.
Qed.

(** What one call of [infinibandSetVFNodeGUID] does, case by case. *)
Lemma infinibandSetVFNodeGUID_run (ibDev : string) (vfID : Z) (nodeGUID : string)
    (s : St W) :
  infinibandSetVFNodeGUID ibDev vfID nodeGUID s =
  let '(r, w) := os_ReadFile (node_path ibDev vfID) (world s) in
  let s1 := after_read (node_path ibDev vfID) w s in
  match r with
  | Fail err => (Returned (Some err), s1)
  | Ok content =>
      if String.eqb (strings_TrimSpace content) nodeGUID then (Returned None, s1)
      else
        match Net.ParseMAC nodeGUID with
        | Fail err =>
            (Returned (Some (Errorf "Failed parsing node_guid %q: %w"
                                    [ArgString nodeGUID; ArgError err])), s1)
        | Ok guid =>
            let '(e, w') := link_SetNodeGUID ibDev guid vfID w in
            (Returned e, mkSt w' (trace s1 ++ [EvLinkSetNodeGUID ibDev guid vfID]))
        end
  end.
Proof.
  unfold infinibandSetVFNodeGUID, bind at 1.
  rewrite infinibandGetVFNodeGUID_run.
  destruct (os_ReadFile _ _) as [[content|err] w]; [|reflexivity].
  destruct (String.eqb _ _); cbn [negb]; [reflexivity|].
  destruct (Net.ParseMAC nodeGUID) as [guid|err]; [|reflexivity].
  unfold Link_SetNodeGUID. run_host.
  destruct (link_SetNodeGUID _ _ _ _) as [[e|] w']; reflexivity.
Qed.

Lemma infinibandSetVFPortGUID_run (ibDev : string) (vfID : Z) (portGUID : string)
    (s : St W) :
  infinibandSetVFPortGUID ibDev vfID portGUID s =
  let '(r, w) := os_ReadFile (port_path ibDev vfID) (world s) in
  let s1 := after_read (port_path ibDev vfID) w s in
  match r with
  | Fail err => (Returned (Some err), s1)
  | Ok content =>
      if String.eqb (strings_TrimSpace content) portGUID then (Returned None, s1)
      else
        match Net.ParseMAC portGUID with
        | Fail err =>
            (Returned (Some (Errorf "Failed parsing port_guid %q: %w"
                                    [ArgString portGUID; ArgError err])), s1)
        | Ok guid =>
            let '(e, w') := link_SetPortGUID ibDev guid vfID w in
            (Returned e, mkSt w' (trace s1 ++ [EvLinkSetPortGUID ibDev guid vfID]))
        end
  end.
Proof.
  unfold infinibandSetVFPortGUID, bind at 1.
  rewrite infinibandGetVFPortGUID_run.
  destruct (os_ReadFile _ _) as [[content|err] w]; [|reflexivity].
  destruct (String.eqb _ _); cbn [negb]; [reflexivity|].
  destruct (Net.ParseMAC portGUID) as [guid|err]; [|reflexivity].
  unfold Link_SetPortGUID. run_host.
  destruct (link_SetPortGUID _ _ _ _) as [[e|] w']; reflexivity.
Qed.

(** The set operations always return: they do not panic. *)
Lemma infinibandSetVFNodeGUID_returns (ibDev : string) (vfID : Z) (g : string)
    (s : St W) :
  exists e s', infinibandSetVFNodeGUID ibDev vfID g s = (Returned e, s').
Proof.
  rewrite infinibandSetVFNodeGUID_run.
  destruct (os_ReadFile _ _) as [[content|err] w]; cbn zeta; [|eauto].
  destruct (String.eqb _ _); [eauto|].
  destruct (Net.ParseMAC g); [|eauto].
  destruct (link_SetNodeGUID _ _ _ _); eauto.
Qed.

Lemma infinibandSetVFPortGUID_returns (ibDev : string) (vfID : Z) (g : string)
    (s : St W) :
  exists e s', infinibandSetVFPortGUID ibDev vfID g s = (Returned e, s').
Proof.
  rewrite infinibandSetVFPortGUID_run.
  destruct (os_ReadFile _ _) as [[content|err] w]; cbn zeta; [|eauto].
  destruct (String.eqb _ _); [eauto|].
  destruct (Net.ParseMAC g); [|eauto].
  destruct (link_SetPortGUID _ _ _ _); eauto.
Qed.

End Accessors.

Section Idempotence.
Context {W : Type} `{Host W}.

Lemma twice_after {A} (m : M W A) (s s1 : St W) (a : A) :
  m s = (Returned a, s1) -> twice m s = m s1.
Proof. unfold twice, bind. intros ->. reflexivity. Qed.

Lemma setNodeGUID_noop (ibDev : string) (vfID : Z) (g : string) (s : St W)
    (content : string) (w : W) :
  os_ReadFile (node_path ibDev vfID) (world s) = (Ok content, w) ->
  strings_TrimSpace content = g ->
  infinibandSetVFNodeGUID ibDev vfID g s
  = (Returned None, after_read (node_path ibDev vfID) w s).
Proof.
  intros Hread Hcur. rewrite infinibandSetVFNodeGUID_run, Hread, Hcur.
  cbn zeta. now rewrite String.eqb_refl.
Qed.

Lemma setPortGUID_noop (ibDev : string) (vfID : Z) (g : string) (s : St W)
    (content : string) (w : W) :
  os_ReadFile (port_path ibDev vfID) (world s) = (Ok content, w) ->
  strings_TrimSpace content = g ->
  infinibandSetVFPortGUID ibDev vfID g s
  = (Returned None, after_read (port_path ibDev vfID) w s).
Proof.
  intros Hread Hcur. rewrite infinibandSetVFPortGUID_run, Hread, Hcur.
  cbn zeta. now rewrite String.eqb_refl.
Qed.




End Idempotence.



(** ** Hardware-address setter *)

Section SetDevMAC.
Context {W : Type} `{Host W}.

Lemma take_string_in_range (n : nat) (s : string) :
  (n <= String.length s)%nat -> take_string n s = Some (String.substring 0 n s).
Proof.
  revert s. induction n as [|n IH]; intros s Hn.
  - destruct s; reflexivity.
  - destruct s as [|c r]; cbn [String.length] in Hn; [lia|].
    cbn [take_string String.substring]. rewrite IH by lia. reflexivity.
Qed.

Lemma take_string_out_of_range (n : nat) (s : string) :
  (String.length s < n)%nat -> take_string n s = None.
Proof.
  revert s. induction n as [|n IH]; intros s Hn; [lia|].
  destruct s as [|c r]; cbn [String.length] in Hn; [reflexivity|].
  cbn [take_string]. rewrite IH by lia. reflexivity.
Qed.

(** The short-form branch, after a successful read of the current address. *)
Lemma infinibandSetDevMAC_short_run (ibDev hwaddr : string) (s : St W)
    (curHwaddr : string) (w1 : W) :
  String.length hwaddr = 23%nat ->
  host_NetworkGetDevMAC ibDev (world s) = (Ok curHwaddr, w1) ->
  infinibandSetDevMAC ibDev hwaddr s =
  match take_string 36 curHwaddr with
  | None => (Panicked "slice bounds out of range",
             mkSt w1 (trace s ++ [EvNetworkGetDevMAC ibDev]))
  | Some prefix =>
      let '(e, w2) := host_NetworkSetDevMAC ibDev (prefix +:+ hwaddr) w1 in
      (Returned e,
       mkSt w2 (trace s ++ [EvNetworkGetDevMAC ibDev;
                            EvNetworkSetDevMAC ibDev (prefix +:+ hwaddr)]))
  end.
Proof.
  intros Hlen Hget. unfold infinibandSetDevMAC. rewrite Hlen. cbn [Nat.eqb].
  unfold NetworkGetDevMAC, NetworkSetDevMAC. run_host. rewrite Hget.
  destruct (take_string 36 curHwaddr) as [prefix|]; [|reflexivity].
  cbn [world trace]. destruct (host_NetworkSetDevMAC _ _ _) as [e w2].
  now rewrite <- app_assoc.
Qed.

(** C3: a 59-byte address goes unchanged to the external set operation; a
    23-byte address is appended to the first 36 bytes of the current
    address (which the external get returned, at least 36 bytes long) and
    the set operation receives exactly that; a failing get is returned
    without any set; every other length gives the invalid-length error
    with no external call. *)
Theorem infinibandSetDevMAC_spec (ibDev hwaddr : string) (s : St W) :
  (String.length hwaddr = 59%nat ->
   infinibandSetDevMAC ibDev hwaddr s =
   let '(e, w) := host_NetworkSetDevMAC ibDev hwaddr (world s) in
   (Returned e, mkSt w (trace s ++ [EvNetworkSetDevMAC ibDev hwaddr])))
  /\ (String.length hwaddr = 23%nat ->
      forall (C : string) (w1 : W),
        host_NetworkGetDevMAC ibDev (world s) = (Ok C, w1) ->
        (36 <= String.length C)%nat ->
        infinibandSetDevMAC ibDev hwaddr s =
        let composed := String.substring 0 36 C +:+ hwaddr in
        let '(e, w2) := host_NetworkSetDevMAC ibDev composed w1 in
        (Returned e,
         mkSt w2 (trace s ++ [EvNetworkGetDevMAC ibDev;
                              EvNetworkSetDevMAC ibDev composed])))
  /\ (String.length hwaddr = 23%nat ->
      forall (err : error) (w1 : W),
        host_NetworkGetDevMAC ibDev (world s) = (Fail err, w1) ->
        infinibandSetDevMAC ibDev hwaddr s =
        (Returned (Some err), mkSt w1 (trace s ++ [EvNetworkGetDevMAC ibDev])))
  /\ (String.length hwaddr <> 59%nat -> String.length hwaddr <> 23%nat ->
      infinibandSetDevMAC ibDev hwaddr s =
      (Returned (Some (Errorf "Invalid length" [])), s)).
Proof.
  split; [|split; [|split]].
  - intros Hlen. unfold infinibandSetDevMAC. rewrite Hlen. cbn [Nat.eqb].
    unfold NetworkSetDevMAC. run_host. reflexivity.
  - intros Hlen C w1 Hget HC.
    rewrite (infinibandSetDevMAC_short_run _ _ _ C w1 Hlen Hget).
    rewrite (take_string_in_range 36 C HC). reflexivity.
  - intros Hlen err w1 Hget. unfold infinibandSetDevMAC. rewrite Hlen.
    cbn [Nat.eqb]. unfold NetworkGetDevMAC. run_host. rewrite Hget. reflexivity.
  - intros H59 H23. unfold infinibandSetDevMAC.
    destruct (Nat.eqb_spec (String.length hwaddr) 59); [contradiction|].
    destruct (Nat.eqb_spec (String.length hwaddr) 23); [contradiction|].
    reflexivity.
Qed.

(** C10: in the 23-byte branch the slice [curHwaddr[:36]] has no length
    guard: with a current address [C] from the external get, the call
    panics exactly when [C] is shorter than 36 bytes, and it then panics
    before any set operation. *)
Theorem infinibandSetDevMAC_slice_guard (ibDev hwaddr : string) (s : St W)
    (C : string) (w1 : W) :
  String.length hwaddr = 23%nat ->
  host_NetworkGetDevMAC ibDev (world s) = (Ok C, w1) ->
  ((exists msg s', infinibandSetDevMAC ibDev hwaddr s = (Panicked msg, s'))
   <-> (String.length C < 36)%nat)
  /\ ((String.length C < 36)%nat ->
      infinibandSetDevMAC ibDev hwaddr s =
      (Panicked "slice bounds out of range",
       mkSt w1 (trace s ++ [EvNetworkGetDevMAC ibDev])))
  /\ ((36 <= String.length C)%nat ->
      exists e s', infinibandSetDevMAC ibDev hwaddr s = (Returned e, s')).
Proof.
  intros Hlen Hget.
  rewrite (infinibandSetDevMAC_short_run _ _ _ C w1 Hlen Hget).
  destruct (Nat.lt_ge_cases (String.length C) 36) as [Hshort|Hlong].
  - rewrite (take_string_out_of_range 36 C Hshort).
    split; [|split]; [split; eauto | reflexivity | lia].
  - rewrite (take_string_in_range 36 C Hlong).
    destruct (host_NetworkSetDevMAC _ _ _) as [e w2].
    split; [|split]; [split | lia | eauto].
    + intros (msg & s' & Habs). discriminate.
    + lia.
Qed.

End SetDevMAC.

Lemma infinibandSetDevMAC_spec_witness :
  events_of (infinibandSetDevMAC "ib0" "11:22:33:44:55:66:77:88")
            (Sim.start Sim.healthy)
  = [EvNetworkGetDevMAC "ib0";
     EvNetworkSetDevMAC "ib0"
       "a0:00:0f:c0:fe:80:00:00:00:00:00:00:11:22:33:44:55:66:77:88"]
  /\ infinibandSetDevMAC "ib0" "11:22:33" (Sim.start Sim.healthy)
     = (Returned (Some (Errorf "Invalid length" [])), Sim.start Sim.healthy).
Proof.
  destruct (infinibandSetDevMAC_spec "ib0" "11:22:33:44:55:66:77:88"
              (Sim.start Sim.healthy)) as (_ & Hshort & _).
  destruct (infinibandSetDevMAC_spec "ib0" "11:22:33"
              (Sim.start Sim.healthy)) as (_ & _ & _ & Hother).
  split.
  - unfold events_of.
    rewrite (Hshort eq_refl
               "a0:00:0f:c0:fe:80:00:00:00:00:00:00:4a:c8:f9:1b:aa:57:ef:19"
               Sim.healthy eq_refl); [reflexivity|].
    cbn. lia.
  - apply Hother; cbn; lia.
Defined.

Lemma infinibandSetDevMAC_slice_guard_witness :
  exists msg s',
    infinibandSetDevMAC "eth0" "11:22:33:44:55:66:77:88" (Sim.start Sim.short_mac)
    = (Panicked msg, s').
Proof.
  destruct (infinibandSetDevMAC_slice_guard "eth0" "11:22:33:44:55:66:77:88"
              (Sim.start Sim.short_mac) "00:16:3e:aa:bb:cc" Sim.short_mac)
    as (Hiff & _); [reflexivity | reflexivity |].
  apply Hiff. cbn. lia.
Defined.

(** ** Snapshot and restore *)

Section Recorder.
Context {W : Type} `{Host W}.

Lemma events_of_unchanged {A} (m : M W A) (s : St W) (a : outcome A) :
  m s = (a, s) -> events_of m s = [].
Proof. unfold events_of. intros ->. apply drop_all. Qed.

Lemma append_inj_l (p x y : string) : p +:+ x = p +:+ y -> x = y.
Proof.
  induction p as [|c p IH]; cbn [String.append]; [trivial|].
  intros [= Heq]. now apply IH.
Qed.

Lemma node_path_not_port_path (ibDev : string) (vfID : Z) :
  node_path ibDev vfID <> port_path ibDev vfID.
Proof.
  intros Heq. unfold node_path, port_path in Heq.
  do 4 apply append_inj_l in Heq. discriminate.
Qed.

Lemma read_node_is_not_read_port (ibDev : string) (vfID : Z) :
  EvReadFile (port_path ibDev vfID) <> EvReadFile (node_path ibDev vfID).
Proof.
  generalize (node_path_not_port_path ibDev vfID).
  generalize (node_path ibDev vfID), (port_path ibDev vfID).
  intros p q Hne [= Heq]. congruence.
Qed.

(** C8: without the key [last_state.vf.id] in the store, restore returns
    no error and leaves the host as it found it: no call to a collaborator,
    so no GUID write. *)
Theorem infinibandRestoreGUIDs_no_lease (hostName : string)
    (volatile : gmap string string) (s : St W) :
  volatile !! "last_state.vf.id" = None ->
  infinibandRestoreGUIDs hostName volatile s = (Returned None, s)
  /\ events_of (infinibandRestoreGUIDs hostName volatile) s = []
  /\ guid_writes (events_of (infinibandRestoreGUIDs hostName volatile) s) = 0%nat.
Proof.
  intros Habsent.
  assert (Hrun : infinibandRestoreGUIDs hostName volatile s = (Returned None, s)).
  { unfold infinibandRestoreGUIDs, map_index. rewrite Habsent. reflexivity. }
  split; [exact Hrun|].
  rewrite (events_of_unchanged _ s _ Hrun). split; reflexivity.
Qed.

(** C5: snapshot writes [last_state.vf.id] first.  When the node GUID or
    the port GUID cannot be read, it returns that error and the store is
    the old one with only [last_state.vf.id] set, so both GUID keys are as
    before; both GUID keys are written, together, when both reads
    succeeded. *)
Theorem infinibandSnapshotGUIDs_store (hostName : string) (vfID : Z)
    (volatile : gmap string string) (s : St W) :
  let recorded := <[ "last_state.vf.id" := Sprintf_d vfID ]> volatile in
  recorded !! "last_state.vf.id" = Some (Sprintf_d vfID)
  /\ recorded !! "last_state.vf.node_guid" = volatile !! "last_state.vf.node_guid"
  /\ recorded !! "last_state.vf.port_guid" = volatile !! "last_state.vf.port_guid"
  /\ (let '(r1, w1) := os_ReadFile (node_path hostName vfID) (world s) in
      let s1 := after_read (node_path hostName vfID) w1 s in
      match r1 with
      | Fail err =>
          infinibandSnapshotGUIDs hostName vfID volatile s
          = (Returned (recorded, Some err), s1)
      | Ok node =>
          let '(r2, w2) := os_ReadFile (port_path hostName vfID) w1 in
          let s2 := after_read (port_path hostName vfID) w2 s1 in
          match r2 with
          | Fail err =>
              infinibandSnapshotGUIDs hostName vfID volatile s
              = (Returned (recorded, Some err), s2)
          | Ok port =>
              infinibandSnapshotGUIDs hostName vfID volatile s
              = (Returned
                   (<[ "last_state.vf.port_guid" := strings_TrimSpace port ]>
                      (<[ "last_state.vf.node_guid" := strings_TrimSpace node ]>
                         recorded), None), s2)
          end
      end).
Proof.
  cbn zeta. split; [apply lookup_insert_eq|].
  split; [now apply lookup_insert_ne|].
  split; [now apply lookup_insert_ne|].
  unfold infinibandSnapshotGUIDs, bind.
  rewrite infinibandGetVFNodeGUID_run.
  destruct (os_ReadFile (node_path hostName vfID) (world s)) as [[node|err] w1];
    [|reflexivity].
  rewrite infinibandGetVFPortGUID_run. cbn [world after_read].
  destruct (os_ReadFile (port_path hostName vfID) w1) as [[port|err] w2];
    reflexivity.
Qed.

(** The run of restore on a complete lease: the node GUID first, the port
    GUID only after the node GUID went through. *)
Lemma infinibandRestoreGUIDs_run (hostName : string)
    (volatile : gmap string string) (s : St W) (vfID : Z) :
  Strconv.ParseUint_10_32 (map_index volatile "last_state.vf.id") = Ok vfID ->
  map_index volatile "last_state.vf.node_guid" <> "" ->
  map_index volatile "last_state.vf.port_guid" <> "" ->
  infinibandRestoreGUIDs hostName volatile s =
  match infinibandSetVFNodeGUID hostName vfID
          (map_index volatile "last_state.vf.node_guid") s with
  | (Returned (Some err), s1) =>
      (Returned (Some (restore_node_error hostName vfID
                         (map_index volatile "last_state.vf.node_guid") err)), s1)
  | (Returned None, s1) =>
      match infinibandSetVFPortGUID hostName vfID
              (map_index volatile "last_state.vf.port_guid") s1 with
      | (Returned (Some err), s2) =>
          (Returned (Some (restore_port_error hostName vfID
                             (map_index volatile "last_state.vf.port_guid") err)), s2)
      | other => other
      end
  | (Panicked msg, s1) => (Panicked msg, s1)
  end.
Proof.
  intros Hparse Hnode Hport. unfold infinibandRestoreGUIDs.
  assert (Hid : nonempty (map_index volatile "last_state.vf.id") = true).
  { destruct (map_index volatile "last_state.vf.id"); [discriminate | reflexivity]. }
  rewrite Hid, Hparse. unfold nonempty, int_of_uint.
  destruct (String.eqb_spec (map_index volatile "last_state.vf.node_guid") "");
    [contradiction|].
  destruct (String.eqb_spec (map_index volatile "last_state.vf.port_guid") "");
    [contradiction|].
  cbn [negb]. unfold bind at 1.
  destruct (infinibandSetVFNodeGUID _ _ _ s) as [[[err|]|msg] s1]; try reflexivity.
  unfold bind at 1.
  destruct (infinibandSetVFPortGUID _ _ _ s1) as [[[err|]|msg] s2]; reflexivity.
Qed.

(** The events of a node GUID set operation never touch the port GUID. *)
Lemma infinibandSetVFNodeGUID_events (ibDev : string) (vfID : Z) (g : string)
    (s : St W) :
  events_of (infinibandSetVFNodeGUID ibDev vfID g) s = [EvReadFile (node_path ibDev vfID)]
  \/ exists guid,
       events_of (infinibandSetVFNodeGUID ibDev vfID g) s
       = [EvReadFile (node_path ibDev vfID); EvLinkSetNodeGUID ibDev guid vfID].
Proof.
  pose proof (infinibandSetVFNodeGUID_run ibDev vfID g s) as Hrun.
  destruct (os_ReadFile _ _) as [[content|err] w]; cbn zeta in Hrun.
  2: { left. apply events_of_app. now rewrite Hrun. }
  destruct (String.eqb _ _).
  { left. apply events_of_app. now rewrite Hrun. }
  destruct (Net.ParseMAC g) as [guid|err].
  2: { left. apply events_of_app. now rewrite Hrun. }
  destruct (link_SetNodeGUID _ _ _ _) as [e w'].
  right. exists guid. apply events_of_app. rewrite Hrun.
  cbn [snd trace after_read]. now rewrite <- app_assoc.
Qed.

(** C1, as the code has it: on a complete lease restore runs the node GUID
    set operation first.  If that fails, restore returns its error,
    wrapped, and stops there: the port GUID is not attempted.  The port
    GUID set operation runs only after the node GUID one returned no
    error, and its error, if any, is then what restore returns, wrapped. *)
Theorem infinibandRestoreGUIDs_sequential (hostName : string)
    (volatile : gmap string string) (s : St W) (vfID : Z) :
  Strconv.ParseUint_10_32 (map_index volatile "last_state.vf.id") = Ok vfID ->
  map_index volatile "last_state.vf.node_guid" <> "" ->
  map_index volatile "last_state.vf.port_guid" <> "" ->
  let nodeGUID := map_index volatile "last_state.vf.node_guid" in
  let portGUID := map_index volatile "last_state.vf.port_guid" in
  (exists err s1,
     infinibandSetVFNodeGUID hostName vfID nodeGUID s = (Returned (Some err), s1)
     /\ infinibandRestoreGUIDs hostName volatile s
        = (Returned (Some (restore_node_error hostName vfID nodeGUID err)), s1)
     /\ (EvReadFile (port_path hostName vfID)
           ∉ events_of (infinibandRestoreGUIDs hostName volatile) s)
     /\ (forall guid, EvLinkSetPortGUID hostName guid vfID
                        ∉ events_of (infinibandRestoreGUIDs hostName volatile) s))
  \/ (exists s1 e s2,
        infinibandSetVFNodeGUID hostName vfID nodeGUID s = (Returned None, s1)
        /\ infinibandSetVFPortGUID hostName vfID portGUID s1 = (Returned e, s2)
        /\ infinibandRestoreGUIDs hostName volatile s
           = (Returned (match e with
                        | Some err =>
                            Some (restore_port_error hostName vfID portGUID err)
                        | None => None
                        end), s2)).
Proof.
  intros Hparse Hnode Hport nodeGUID portGUID.
  pose proof (infinibandRestoreGUIDs_run hostName volatile s vfID Hparse Hnode Hport)
    as Hrun. fold nodeGUID portGUID in Hrun.
  destruct (infinibandSetVFNodeGUID_returns hostName vfID nodeGUID s)
    as (e1 & s1 & Hfirst).
  pose proof (infinibandSetVFNodeGUID_events hostName vfID nodeGUID s) as Hev.
  rewrite Hfirst in Hrun. destruct e1 as [err|].
  - left. exists err, s1. split; [exact Hfirst|]. split; [exact Hrun|].
    assert (Hsame : events_of (infinibandRestoreGUIDs hostName volatile) s
                    = events_of (infinibandSetVFNodeGUID hostName vfID nodeGUID) s).
    { unfold events_of. now rewrite Hrun, Hfirst. }
    rewrite Hsame. split.
    + destruct Hev as [-> | [guid ->]]; intros Hin.
      * apply list_elem_of_singleton in Hin.
        now apply read_node_is_not_read_port in Hin.
      * apply elem_of_cons in Hin as [Hin|Hin].
        { now apply read_node_is_not_read_port in Hin. }
        apply list_elem_of_singleton in Hin. discriminate.
    + intros guid'. destruct Hev as [-> | [guid ->]]; intros Hin.
      * apply list_elem_of_singleton in Hin. discriminate.
      * apply elem_of_cons in Hin as [Hin|Hin]; [discriminate|].
        apply list_elem_of_singleton in Hin. discriminate.
  - right.
    destruct (infinibandSetVFPortGUID_returns hostName vfID portGUID s1)
      as (e2 & s2 & Hsecond).
    exists s1, e2, s2. split; [exact Hfirst|]. split; [exact Hsecond|].
    rewrite Hrun, Hsecond. destruct e2; reflexivity.
Qed.

End Recorder.

Lemma infinibandRestoreGUIDs_no_lease_witness :
  infinibandRestoreGUIDs "mlx5_0" ∅ (Sim.start Sim.healthy)
  = (Returned None, Sim.start Sim.healthy).
Proof.
  apply (infinibandRestoreGUIDs_no_lease "mlx5_0" ∅ (Sim.start Sim.healthy)).
  reflexivity.
Defined.

Lemma infinibandRestoreGUIDs_sequential_witness :
  fst (infinibandRestoreGUIDs "mlx5_0" Sim.lease (Sim.start Sim.healthy))
  = Returned None.
Proof.
  destruct (infinibandRestoreGUIDs_sequential "mlx5_0" Sim.lease
              (Sim.start Sim.healthy) 3)
    as [(err & s1 & Hnode & _) | (s1 & e & s2 & _ & _ & Hrun)];
    [reflexivity | discriminate | discriminate | discriminate | reflexivity].
Defined.

Lemma infinibandSnapshotGUIDs_store_witness :
  infinibandSnapshotGUIDs "mlx5_0" 3 ∅ (Sim.start Sim.node_unreadable)
  = (Returned ({[ "last_state.vf.id" := "3" ]},
               Some (HostError "no such file or directory")),
     after_read (node_path "mlx5_0" 3) Sim.node_unreadable
       (Sim.start Sim.node_unreadable)).
Proof.
  exact (proj2 (proj2 (proj2
    (infinibandSnapshotGUIDs_store "mlx5_0" 3 ∅ (Sim.start Sim.node_unreadable))))).
Defined.

(** C1 as stated fails: with the node GUID file unreadable, restore on a
    complete lease returns the node GUID error and never reaches the port
    GUID. *)
Lemma infinibandRestoreGUIDs_node_failure_blocks_port :
  lease_complete Sim.lease
  /\ ~ restore_attempts_both "mlx5_0" Sim.lease (Sim.start Sim.node_unreadable).
Proof.
  split; [repeat split; discriminate|].
  intros (vfID & Hparse & _ & Hport).
  injection Hparse as <-.
  apply list_elem_of_singleton in Hport. discriminate.
Qed.

Example restore_on_unreadable_node :
  infinibandRestoreGUIDs "mlx5_0" Sim.lease (Sim.start Sim.node_unreadable)
  = (Returned (Some (restore_node_error "mlx5_0" 3 "4a:c8:f9:1b:aa:57:ef:19"
                       (HostError "no such file or directory"))),
     mkSt Sim.node_unreadable
          [EvReadFile "/sys/class/infiniband/mlx5_0/device/sriov/3/node"]).
Proof. reflexivity. Qed.

Example snapshot_on_unreadable_node :
  infinibandSnapshotGUIDs "mlx5_0" 3 ∅ (Sim.start Sim.node_unreadable)
  = (Returned ({[ "last_state.vf.id" := "3" ]},
               Some (HostError "no such file or directory")),
     mkSt Sim.node_unreadable
          [EvReadFile "/sys/class/infiniband/mlx5_0/device/sriov/3/node"]).
Proof. reflexivity. Qed.

Example snapshot_then_restore_writes_nothing :
  let '(r, s1) := infinibandSnapshotGUIDs "mlx5_0" 3 ∅ (Sim.start Sim.healthy) in
  match r with
  | Returned (volatile, None) =>
      guid_writes (events_of (infinibandRestoreGUIDs "mlx5_0" volatile) s1) = 0%nat
  | _ => False
  end.
Proof. reflexivity. Qed.

(** ** Device-node provisioner *)

Section Provisioner.
Context {W : Type} `{Host W}.

(** One step of [provision_in_order]: the call is made, and an error ends
    the run before the names that follow. *)
Lemma provision_in_order_step (devicesPath deviceName name : string)
    (rest : list string) (s : St W) :
  provision_in_order devicesPath deviceName (name :: rest) s =
  let '(e, w1) :=
    host_unixDeviceSetup devicesPath IBDevPrefix deviceName
      {[ "source" := "/dev/infiniband/" +:+ name ]} false (world s) in
  let s1 := mkSt w1 (trace s ++ [setup_event devicesPath deviceName name]) in
  match e with
  | Some err => (Returned (Some err), s1)
  | None => provision_in_order devicesPath deviceName rest s1
  end.
Proof.
  cbn [provision_in_order]. unfold unixDeviceSetup. run_host.
  destruct (host_unixDeviceSetup _ _ _ _ _ _) as [[err|] w1]; reflexivity.
Qed.

(** The calls made are those for a prefix of the names, all of them when
    no error is returned. *)
Lemma provision_in_order_prefix (devicesPath deviceName : string)
    (names : list string) (s : St W) :
  exists (k : nat) (e : option error) (s' : St W),
    provision_in_order devicesPath deviceName names s = (Returned e, s')
    /\ trace s' = (trace s ++ map (setup_event devicesPath deviceName)
                                  (take k names))%list
    /\ (k <= length names)%nat
    /\ (e = None -> k = length names).
Proof.
  revert s. induction names as [|name rest IH]; intros s.
  - exists 0%nat, None, s. cbn. rewrite app_nil_r. auto.
  - rewrite provision_in_order_step.
    destruct (host_unixDeviceSetup _ _ _ _ _ _) as [[err|] w1]; cbn zeta.
    + exists 1%nat, (Some err), (mkSt w1 (trace s ++ [setup_event devicesPath deviceName name])).
      cbn. rewrite take_0. repeat split; [lia | discriminate].
    + destruct (IH (mkSt w1 (trace s ++ [setup_event devicesPath deviceName name])))
        as (k & e & s' & Hrun & Htrace & Hk & Hall).
      exists (S k), e, s'. rewrite Hrun, Htrace. cbn [trace take map length].
      rewrite <- app_assoc. repeat split; [lia|]. intros He. now rewrite Hall.
Qed.

Lemma infinibandAddDevices_refines (devicesPath deviceName : string)
    (ibDev : ResourcesNetworkCardPort) (ib : ResourcesNetworkCardPortInfiniband)
    (s : St W) :
  Infiniband ibDev = Some ib ->
  infinibandAddDevices devicesPath deviceName ibDev s
  = provision_in_order devicesPath deviceName (present_names ib) s.
Proof.
  intros Hib. unfold infinibandAddDevices, present_names. rewrite Hib.
  cbn [List.filter].
  destruct (nonempty (IsSMName ib)), (nonempty (MADName ib)),
    (nonempty (VerbName ib)); reflexivity.
Qed.

(** C9: provisioning a port without InfiniBand payload fails at once, with
    no call.  Otherwise it is one device-setup call per non-empty name, in
    the order subnet-manager, management-datagram, verbs, stopping at the
    first error, which it returns.  With the subnet-manager and verbs names
    set and the management-datagram name empty, and the first call going
    through, exactly two calls are made. *)
Theorem infinibandAddDevices_spec (devicesPath deviceName : string)
    (ibDev : ResourcesNetworkCardPort) (s : St W) :
  (Infiniband ibDev = None ->
   infinibandAddDevices devicesPath deviceName ibDev s
   = (Returned (Some (Errorf "No infiniband devices supplied" [])), s))
  /\ (forall ib, Infiniband ibDev = Some ib ->
      infinibandAddDevices devicesPath deviceName ibDev s
      = provision_in_order devicesPath deviceName
          (List.filter nonempty [IsSMName ib; MADName ib; VerbName ib]) s)
  /\ (forall ib, Infiniband ibDev = Some ib ->
      exists (k : nat) (e : option error) (s' : St W),
        infinibandAddDevices devicesPath deviceName ibDev s = (Returned e, s')
        /\ events_of (infinibandAddDevices devicesPath deviceName ibDev) s
           = map (setup_event devicesPath deviceName) (take k (present_names ib))
        /\ (k <= length (present_names ib))%nat
        /\ (e = None -> k = length (present_names ib)))
  /\ (forall ib w1,
      Infiniband ibDev = Some ib ->
      IsSMName ib <> "" -> MADName ib = "" -> VerbName ib <> "" ->
      host_unixDeviceSetup devicesPath IBDevPrefix deviceName
        {[ "source" := "/dev/infiniband/" +:+ IsSMName ib ]} false (world s)
      = (None, w1) ->
      events_of (infinibandAddDevices devicesPath deviceName ibDev) s
      = [setup_event devicesPath deviceName (IsSMName ib);
         setup_event devicesPath deviceName (VerbName ib)]
      /\ device_setups (events_of (infinibandAddDevices devicesPath deviceName ibDev) s)
         = 2%nat).
Proof.
  split; [|split; [|split]].
  - intros Hib. unfold infinibandAddDevices. rewrite Hib. reflexivity.
  - intros ib Hib. now apply infinibandAddDevices_refines.
  - intros ib Hib.
    destruct (provision_in_order_prefix devicesPath deviceName (present_names ib) s)
      as (k & e & s' & Hrun & Htrace & Hk & Hall).
    rewrite <- (infinibandAddDevices_refines _ _ ibDev ib s Hib) in Hrun.
    exists k, e, s'. split; [exact Hrun|]. split; [|auto].
    apply events_of_app. now rewrite Hrun.
  - intros ib w1 Hib Hsm Hmad Hverb Hfirst.
    assert (Hev : events_of (infinibandAddDevices devicesPath deviceName ibDev) s
                  = [setup_event devicesPath deviceName (IsSMName ib);
                     setup_event devicesPath deviceName (VerbName ib)]).
    { apply events_of_app.
      rewrite (infinibandAddDevices_refines _ _ ibDev ib s Hib).
      unfold present_names, nonempty. cbn [List.filter]. rewrite Hmad.
      destruct (String.eqb_spec (IsSMName ib) ""); [contradiction|].
      destruct (String.eqb_spec (VerbName ib) ""); [contradiction|].
      cbn [negb String.eqb].
      rewrite provision_in_order_step, Hfirst. cbn zeta.
      rewrite provision_in_order_step. cbn [world trace].
      destruct (host_unixDeviceSetup _ _ _ _ _ w1) as [[err|] w2];
        cbn [snd trace provision_in_order ret]; now rewrite <- app_assoc. }
    rewrite Hev. split; reflexivity.
Qed.

End Provisioner.

Lemma infinibandAddDevices_spec_witness :
  device_setups
    (events_of (infinibandAddDevices "/var/lib/incus/devices/c1" "ib0"
                  (Sim.ib_port "p1" 1))
               (Sim.start Sim.healthy)) = 2%nat
  /\ infinibandAddDevices "/var/lib/incus/devices/c1" "ib0"
       (mkPort "p1" 1 "infiniband" None) (Sim.start Sim.healthy)
     = (Returned (Some (Errorf "No infiniband devices supplied" [])),
        Sim.start Sim.healthy).
Proof.
  split.
  - destruct (infinibandAddDevices_spec "/var/lib/incus/devices/c1" "ib0"
                (Sim.ib_port "p1" 1) (Sim.start Sim.healthy)) as (_ & _ & _ & Htwo).
    apply (Htwo (mkInfiniband "issm0" "" "uverbs0")
                (snd (Sim.setup "/var/lib/incus/devices/c1" IBDevPrefix "ib0"
                        {[ "source" := "/dev/infiniband/issm0" ]} false Sim.healthy)));
      try reflexivity; discriminate.
  - destruct (infinibandAddDevices_spec "/var/lib/incus/devices/c1" "ib0"
                (mkPort "p1" 1 "infiniband" None) (Sim.start Sim.healthy))
      as (Hnone & _).
    apply Hnone. reflexivity.
Defined.

Example provisioning_stops_at_first_error :
  events_of (infinibandAddDevices "/var/lib/incus/devices/c1" "ib0"
               (mkPort "p1" 1 "infiniband"
                  (Some (mkInfiniband "issm0" "umad0" "uverbs0"))))
            (Sim.start (Sim.mkWorld ∅ ∅ false ["/dev/infiniband/umad0"] []))
  = [setup_event "/var/lib/incus/devices/c1" "ib0" "issm0";
     setup_event "/var/lib/incus/devices/c1" "ib0" "umad0"].
Proof. reflexivity. Qed.

(** ** Port/VF matcher *)

Section Matcher.
Implicit Types (m : gmap string ResourcesNetworkCardPort).
Implicit Types (p port : ResourcesNetworkCardPort).

Lemma scanPorts_cons parent port ports m :
  scanPorts parent (port :: ports) m =
  scanPorts parent ports
    (if negb (String.eqb (Protocol port) "infiniband") then m
     else if negb (String.eqb (ID port) parent) then m
     else <[ ID port := port ]> m).
Proof. reflexivity. Qed.

(** An entry after the scan of the card's own ports was there before or is
    an InfiniBand port of the card named as the parent. *)
Lemma scanPorts_entries parent ports m k p :
  scanPorts parent ports m !! k = Some p ->
  m !! k = Some p
  \/ (p ∈ ports /\ Protocol p = "infiniband" /\ ID p = parent /\ k = parent).
Proof.
  revert m. induction ports as [|port ports IH]; intros m Hk; [now left|].
  rewrite scanPorts_cons in Hk. apply IH in Hk as [Hk | (Hin & Hrest)].
  - destruct (String.eqb_spec (Protocol port) "infiniband") as [Hproto|];
      cbn [negb] in Hk; [|now left].
    destruct (String.eqb_spec (ID port) parent) as [Hid|];
      cbn [negb] in Hk; [|now left].
    destruct (decide (ID port = k)) as [<-|Hne].
    + rewrite lookup_insert_eq in Hk. injection Hk as <-.
      right. repeat split; auto. apply elem_of_cons; now left.
    + rewrite lookup_insert_ne in Hk by exact Hne. now left.
  - right. split; [apply elem_of_cons; now right | exact Hrest].
Qed.

(** The scan keeps what is stored under the parent's name, and stores the
    parent when it is an InfiniBand port of the card. *)
Lemma scanPorts_keeps parent ports m :
  is_Some (m !! parent) -> is_Some (scanPorts parent ports m !! parent).
Proof.
  revert m. induction ports as [|port ports IH]; intros m Hm; [exact Hm|].
  rewrite scanPorts_cons. apply IH.
  destruct (negb (String.eqb (Protocol port) "infiniband")); [exact Hm|].
  destruct (String.eqb_spec (ID port) parent) as [Hid|]; cbn [negb]; [|exact Hm].
  rewrite Hid, lookup_insert_eq. eauto.
Qed.

Lemma scanPorts_finds parent ports m pf :
  pf ∈ ports -> Protocol pf = "infiniband" -> ID pf = parent ->
  is_Some (scanPorts parent ports m !! parent).
Proof.
  intros Hin Hproto Hid. revert m.
  induction ports as [|port ports IH]; intros m.
  - now apply elem_of_nil in Hin.
  - rewrite scanPorts_cons. apply elem_of_cons in Hin as [<-|Hin].
    + rewrite Hproto, Hid, !String.eqb_refl. cbn [negb].
      apply scanPorts_keeps. subst parent. rewrite lookup_insert_eq. eauto.
    + now apply IH.
Qed.

Lemma scanVFPorts_cons parent parentDev port ports m :
  scanVFPorts parent parentDev (port :: ports) m =
  scanVFPorts parent parentDev ports
    (if negb (String.eqb (Protocol port) "infiniband") then m
     else match parentDev with
          | Some dev =>
              if negb (N.eqb (Port dev) (Port port)) then m
              else <[ ID port := port ]> m
          | None =>
              if negb (String.eqb (ID port) parent) then m
              else <[ ID port := port ]> m
          end).
Proof. reflexivity. Qed.

Lemma scanVFPorts_entries parent parentDev ports m k p :
  scanVFPorts parent parentDev ports m !! k = Some p ->
  m !! k = Some p
  \/ (p ∈ ports /\ ID p = k /\ vf_admitted parent parentDev p).
Proof.
  revert m. induction ports as [|port ports IH]; intros m Hk; [now left|].
  rewrite scanVFPorts_cons in Hk. apply IH in Hk as [Hk | (Hin & Hrest)].
  2: { right. split; [apply elem_of_cons; now right | exact Hrest]. }
  destruct (String.eqb_spec (Protocol port) "infiniband") as [Hproto|];
    cbn [negb] in Hk; [|now left].
  assert (Hstored : <[ ID port := port ]> m !! k = Some p ->
                    vf_admitted parent parentDev port ->
                    m !! k = Some p
                    \/ (p ∈ port :: ports /\ ID p = k /\ vf_admitted parent parentDev p)).
  { intros Hins Hadm. destruct (decide (ID port = k)) as [<-|Hne].
    - rewrite lookup_insert_eq in Hins. injection Hins as <-.
      right. repeat split; try apply Hadm. apply elem_of_cons; now left.
    - rewrite lookup_insert_ne in Hins by exact Hne. now left. }
  destruct parentDev as [dev|].
  - destruct (N.eqb_spec (Port dev) (Port port)) as [Hport|]; cbn [negb] in Hk;
      [|now left].
    apply Hstored; [exact Hk | split; assumption].
  - destruct (String.eqb_spec (ID port) parent) as [Hid|]; cbn [negb] in Hk;
      [|now left].
    apply Hstored; [exact Hk | split; assumption].
Qed.

Lemma scanVFs_entries parent parentDev (vfs : list ResourcesNetworkCard) m k p :
  foldl (fun ibDevs VF => scanVFPorts parent parentDev (Ports VF) ibDevs) m vfs
    !! k = Some p ->
  m !! k = Some p
  \/ (exists VF, VF ∈ vfs /\ p ∈ Ports VF /\ ID p = k
                 /\ vf_admitted parent parentDev p).
Proof.
  revert m. induction vfs as [|VF vfs IH]; intros m Hk; [now left|].
  cbn [foldl] in Hk. apply IH in Hk as [Hk | (VF' & Hin & Hrest)].
  - apply scanVFPorts_entries in Hk as [Hk | (Hin & Hrest)]; [now left|].
    right. exists VF. split; [apply elem_of_cons; now left | auto].
  - right. exists VF'. split; [apply elem_of_cons; now right | exact Hrest].
Qed.

(** X21: on an inventory of one card the matcher does what its comments say:
    an entry is the parent as a port of the card, or a VF port of the card
    that is on the port of the parent found as PF or, when the parent was
    not found as PF, bears the parent's name. *)
Lemma infinibandDevices_one_card (card : ResourcesNetworkCard) (parent k : string) p :
  infinibandDevices (mkNetwork [card]) parent !! k = Some p ->
  Protocol p = "infiniband" /\ ID p = k
  /\ ((p ∈ Ports card /\ ID p = parent)
      \/ (exists sriov VF,
            SRIOV card = Some sriov /\ VF ∈ VFs sriov /\ p ∈ Ports VF
            /\ ((exists pf, pf ∈ Ports card /\ Protocol pf = "infiniband"
                            /\ ID pf = parent /\ Port pf = Port p)
                \/ ((forall pf, pf ∈ Ports card -> Protocol pf = "infiniband" ->
                                ID pf <> parent)
                    /\ ID p = parent)))).
Proof.
  unfold infinibandDevices. cbn [Cards foldl]. unfold scanCard.
  assert (Hpf : forall q, scanPorts parent (Ports card) ∅ !! k = Some q ->
                          q ∈ Ports card /\ Protocol q = "infiniband"
                          /\ ID q = parent /\ k = parent).
  { intros q Hq. apply scanPorts_entries in Hq as [Hq|Hq]; [|exact Hq].
    rewrite lookup_empty in Hq. discriminate. }
  destruct (SRIOV card) as [sriov|] eqn:Hsriov.
  2: { intros Hk. apply Hpf in Hk as (Hin & Hproto & Hid & ->). auto 6. }
  intros Hk. apply scanVFs_entries in Hk as [Hk | (VF & HVF & Hin & Hid & Hproto & Hadm)].
  { apply Hpf in Hk as (Hin & Hproto & Hid & ->). auto 6. }
  split; [exact Hproto|]. split; [exact Hid|].
  right. exists sriov, VF. repeat split; auto.
  destruct (scanPorts parent (Ports card) ∅ !! parent) as [dev|] eqn:Hdev.
  - left. exists dev.
    apply scanPorts_entries in Hdev as [Hdev | (Hdin & Hdproto & Hdid & _)].
    { rewrite lookup_empty in Hdev. discriminate. }
    auto.
  - right. split; [|exact Hadm].
    intros pf Hpfin Hpfproto Hpfid.
    pose proof (scanPorts_finds parent (Ports card) ∅ pf Hpfin Hpfproto Hpfid)
      as Hfound.
    rewrite Hdev in Hfound. now destruct Hfound.
Qed.

(** On every inventory, each entry is an InfiniBand port stored under its
    own identifier. *)
Lemma infinibandDevices_entries (nics : ResourcesNetwork) (parent k : string) p :
  infinibandDevices nics parent !! k = Some p ->
  Protocol p = "infiniband" /\ ID p = k.
Proof.
  unfold infinibandDevices.
  assert (Hinv : forall cards m,
             (forall k p, m !! k = Some p -> Protocol p = "infiniband" /\ ID p = k) ->
             forall k p, foldl (scanCard parent) m cards !! k = Some p ->
                         Protocol p = "infiniband" /\ ID p = k).
  { induction cards as [|card cards IH]; intros m Hm k' p' Hk; [now apply Hm|].
    cbn [foldl] in Hk. revert k' p' Hk. apply IH. clear IH.
    intros k' p' Hk. unfold scanCard in Hk.
    assert (Hpf : forall k p, scanPorts parent (Ports card) m !! k = Some p ->
                              Protocol p = "infiniband" /\ ID p = k).
    { intros k0 p0 H0. apply scanPorts_entries in H0 as [H0 | (_ & ? & ? & ?)];
        [now apply Hm | split; congruence]. }
    destruct (SRIOV card) as [sriov|]; [|now apply Hpf].
    apply scanVFs_entries in Hk as [Hk | (VF & _ & _ & Hid & Hproto & _)];
      [now apply Hpf | auto]. }
  apply Hinv. intros k' p' Hk. rewrite lookup_empty in Hk. discriminate.
Qed.

(** The two matcher examples of the specification, on one card. *)
Lemma infinibandDevices_card_X :
  infinibandDevices Sim.one_card "p1"
  = {[ "p1" := Sim.ib_port "p1" 1; "v1" := Sim.ib_port "v1" 1 ]}
  /\ infinibandDevices Sim.one_card "v2" = {[ "v2" := Sim.ib_port "v2" 2 ]}.
Proof. split; reflexivity. Qed.

(** C2 on two cards: the parent [v2] is a VF of card X and no card has a
    PF of that name, yet the result holds [w2], a VF of card Y whose name
    is not the parent's.  The entry left for [v2] by card X is taken for
    a PF when card Y is scanned. *)
Theorem infinibandDevices_other_card_leak :
  named_as_PF "v2" Sim.two_cards = false
  /\ infinibandDevices Sim.two_cards "v2"
     = {[ "v2" := Sim.ib_port "v2" 2; "w2" := Sim.ib_port "w2" 2 ]}
  /\ infinibandDevices Sim.two_cards "v2" !! "w2" = Some (Sim.ib_port "w2" 2)
  /\ ID (Sim.ib_port "w2" 2) <> "v2".
Proof.
  split; [|split; [|split]]; try reflexivity; discriminate.
Qed.

(** The same defect with a PF as parent: VFs of another card that sit on
    the same port number are taken along. *)
Example infinibandDevices_pf_other_card :
  infinibandDevices Sim.two_cards "p1"
  = {[ "p1" := Sim.ib_port "p1" 1; "v1" := Sim.ib_port "v1" 1;
       "w1" := Sim.ib_port "w1" 1 ]}.
Proof. reflexivity. Qed.

End Matcher.

(** * Further properties *)

(** ** The strings the validators accept *)

Section AcceptedStrings.

Lemma xtoi_loop_not_hex (h : ascii) (rest : string) (n : Z) (i : nat) :
  is_hex h = false ->
  Net.xtoi_loop (String h rest) n i
  = if Nat.eqb i 0 then (0, i, false) else (n, i, true).
Proof.
  unfold is_hex. intros Hh. cbn [Net.xtoi_loop].
  apply orb_false_iff in Hh as [Hh H3]. apply orb_false_iff in Hh as [H1 H2].
  fold (byte_of h). now rewrite H1, H2, H3.
Qed.

(** Two bytes on which [xtoi] consumes both are two hex digits. *)
Lemma xtoi_two_consumed (h1 h2 : ascii) (v : Z) :
  Net.xtoi (String h1 (String h2 EmptyString)) = (v, 2%nat, true) ->
  is_hex h1 = true /\ is_hex h2 = true.
Proof.
  unfold Net.xtoi. intros Hx.
  destruct (is_hex h1) eqn:H1.
  2: { rewrite (xtoi_loop_not_hex h1 _ 0 0 H1) in Hx. discriminate. }
  destruct (xtoi_loop_hex h1 (String h2 EmptyString) 0 0 H1) as (d1 & Hd1 & Hstep);
    [lia | unfold Net.big; lia |].
  rewrite Hstep in Hx. destruct (is_hex h2) eqn:H2; [auto|].
  rewrite (xtoi_loop_not_hex h2 _ _ 1 H2) in Hx. discriminate.
Qed.

Lemma xtoi_one_byte (h : ascii) :
  snd (fst (Net.xtoi (String h EmptyString))) <> 2%nat.
Proof.
  unfold Net.xtoi. destruct (is_hex h) eqn:Hh.
  - destruct (xtoi_loop_hex h EmptyString 0 0 Hh) as (d & Hd & ->);
      [lia | unfold Net.big; lia |].
    cbn. lia.
  - rewrite (xtoi_loop_not_hex h _ 0 0 Hh). cbn. lia.
Qed.

(** What [xtoi2] accepts: two hex digits, then nothing or the separator. *)
Lemma xtoi2_accepts (t : string) (e : ascii) (b : Z) :
  Net.xtoi2 t e = (b, true) ->
  exists h1 h2 tl,
    t = String h1 (String h2 tl)
    /\ is_hex h1 = true /\ is_hex h2 = true
    /\ (tl = EmptyString \/ exists rest, tl = String e rest)
    /\ 0 <= b < 256.
Proof.
  unfold Net.xtoi2. destruct t as [|h1 [|h2 tl]].
  - cbn. discriminate.
  - cbn [String.length String.get Nat.ltb Nat.leb andb String.substring].
    pose proof (xtoi_one_byte h1) as Hone.
    destruct (Net.xtoi (String h1 EmptyString)) as [[n ei] ok]. cbn in Hone.
    intros [= _ Hok]. apply andb_true_iff in Hok as [_ Hok].
    apply Nat.eqb_eq in Hok. contradiction.
  - intros Hx. exists h1, h2, tl.
    assert (Hsep : tl = EmptyString \/ exists rest, tl = String e rest).
    { destruct tl as [|c rest]; [now left|]. right. exists rest.
      cbn [String.get String.length] in Hx.
      destruct (Ascii.eqb_spec c e) as [->|Hne]; [reflexivity|].
      cbn in Hx. discriminate. }
    assert (Hrun : (let '(n, ei, ok) := Net.xtoi (String h1 (String h2 EmptyString)) in
                    (n mod 256, ok && Nat.eqb ei 2)) = (b, true)).
    { destruct Hsep as [-> | [rest ->]].
      - cbn [String.get String.length Nat.ltb Nat.leb andb String.substring] in Hx.
        exact Hx.
      - cbn [String.get String.length String.substring] in Hx.
        rewrite Ascii.eqb_refl in Hx.
        cbn [negb] in Hx. rewrite andb_false_r in Hx. exact Hx. }
    destruct (Net.xtoi (String h1 (String h2 EmptyString))) as [[n ei] ok] eqn:Hxtoi.
    injection Hrun as Hb Hok. apply andb_true_iff in Hok as [-> Hei].
    apply Nat.eqb_eq in Hei. subst ei.
    destruct (xtoi_two_consumed h1 h2 n Hxtoi) as [H1 H2].
    repeat split; auto; subst b; apply Z.mod_pos_bound; lia.
Qed.

(** The loop of the colon form yields [k] bytes, and it goes through only
    on [k] colon-separated hex pairs. *)
Lemma colon_loop_bytes (s : string) (e : ascii) (k x : nat) (hw : Net.HardwareAddr) :
  Net.colon_loop s e k x = Some hw ->
  length hw = k /\ Forall (fun b => 0 <= b < 256) hw.
Proof.
  revert x hw. induction k as [|k IH]; intros x hw Hloop; cbn [Net.colon_loop] in Hloop.
  - injection Hloop as <-. split; [reflexivity | constructor].
  - destruct (Net.xtoi2 (drop_string x s) e) as [b [|]] eqn:Hx; [|discriminate].
    destruct (Net.colon_loop s e k (x + 3)) as [hw'|] eqn:Hrest; [|discriminate].
    injection Hloop as <-. destruct (IH _ _ Hrest) as [Hlen Hall].
    apply xtoi2_accepts in Hx as (_ & _ & _ & _ & _ & _ & _ & Hb).
    split; [cbn; now rewrite Hlen | now constructor].
Qed.

Lemma colon_loop_accepts (s : string) (k x : nat) (hw : Net.HardwareAddr) :
  Net.colon_loop s ":" k x = Some hw ->
  String.length (drop_string x s) = (3 * k - 1)%nat -> (1 <= k)%nat ->
  colon_hex k (drop_string x s) = true.
Proof.
  revert x hw. induction k as [|k IH]; intros x hw Hloop Hlen Hk; [lia|].
  cbn [Net.colon_loop] in Hloop.
  destruct (Net.xtoi2 (drop_string x s) ":") as [b [|]] eqn:Hx; [|discriminate].
  destruct (Net.colon_loop s ":" k (x + 3)) as [hw'|] eqn:Hrest; [|discriminate].
  apply xtoi2_accepts in Hx as (h1 & h2 & tl & Ht & H1 & H2 & Hsep & _).
  rewrite Ht in Hlen |- *. cbn [String.length] in Hlen.
  destruct k as [|k].
  - destruct tl; [|cbn [String.length] in Hlen; lia].
    cbn. now rewrite H1, H2.
  - destruct Hsep as [-> | [rest ->]]; [cbn [String.length] in Hlen; lia|].
    cbn [colon_hex]. rewrite H1, H2, Ascii.eqb_refl. cbn [andb].
    assert (Hdrop : drop_string (x + 3) s = rest).
    { rewrite drop_string_add, Ht. reflexivity. }
    rewrite <- Hdrop. apply (IH (x + 3)%nat hw' Hrest).
    + rewrite Hdrop. cbn [String.length] in Hlen. lia.
    + lia.
Qed.

(** [net.ParseMAC] on a string without dash and dot: it parses exactly the
    strings of 6, 8 or 20 colon-separated hex pairs, into that many bytes. *)
Lemma ParseMAC_colon_form (s : string) (hw : Net.HardwareAddr) :
  Net.ParseMAC s = Ok hw -> ContainsAny s "-." = false ->
  Net.byte_count_ok (length hw) = true
  /\ colon_hex (length hw) s = true
  /\ Forall (fun b => 0 <= b < 256) hw.
Proof.
  intros Hparse Hclean. apply ContainsAny_dash_dot in Hclean.
  unfold Net.ParseMAC in Hparse.
  destruct (String.length s <? 14)%nat eqn:Hlen14; [discriminate|].
  apply Nat.ltb_ge in Hlen14.
  destruct (String.get 2 s) as [s2|] eqn:Hs2; [|discriminate].
  destruct (String.get 4 s) as [s4|] eqn:Hs4; [|discriminate].
  destruct (Hclean _ _ Hs2) as [Hdash2 _]. destruct (Hclean _ _ Hs4) as [_ Hdot4].
  destruct (Ascii.eqb_spec s2 "-") as [|_]; [contradiction|].
  destruct (Ascii.eqb_spec s4 ".") as [|_]; [contradiction|].
  rewrite orb_false_r in Hparse.
  destruct (Ascii.eqb_spec s2 ":") as [->|_]; [|discriminate].
  destruct (Nat.eqb_spec ((String.length s + 1) mod 3) 0) as [Hmod|];
    cbn [negb] in Hparse; [|discriminate].
  set (n := ((String.length s + 1) / 3)%nat) in *.
  destruct (Net.byte_count_ok n) eqn:Hcount; cbn [negb] in Hparse; [|discriminate].
  destruct (Net.colon_loop s ":" n 0) as [hw'|] eqn:Hloop; [|discriminate].
  injection Hparse as <-.
  destruct (colon_loop_bytes _ _ _ _ _ Hloop) as [Hn Hall].
  rewrite Hn. split; [exact Hcount|]. split; [|exact Hall].
  assert (Hdiv : (String.length s + 1 = 3 * n)%nat).
  { unfold n. pose proof (Nat.div_mod_eq (String.length s + 1) 3). lia. }
  apply (colon_loop_accepts s n 0 hw' Hloop); cbn [drop_string]; lia.
Qed.

End AcceptedStrings.

Section AcceptedByValidators.

Lemma colon_hex_count (k : nat) (s : string) :
  colon_hex k s = true -> (3 * k = String.length s + 1)%nat.
Proof.
  intros Hk. pose proof (colon_hex_length k s Hk).
  destruct k; [discriminate | lia].
Qed.

(** X1: [infinibandValidGUID] accepts exactly the strings made of 8 hex
    pairs separated by colons. *)
Theorem infinibandValidGUID_accepts (value : string) :
  infinibandValidGUID value = None <-> colon_hex 8 value = true.
Proof.
  rewrite infinibandValidGUID_ok. split.
  - intros (Hparse & Hlen & Hclean).
    destruct (Net.ParseMAC value) as [hw|] eqn:Hmac; [|discriminate].
    destruct (ParseMAC_colon_form value hw Hmac Hclean) as (_ & Hhex & _).
    pose proof (colon_hex_count _ _ Hhex) as Hcount.
    replace (length hw) with 8%nat in Hhex by lia. exact Hhex.
  - intros Hhex. split; [|split].
    + now apply (ParseMAC_colon_hex 8).
    + now rewrite (colon_hex_length 8 value Hhex).
    + now apply (colon_hex_no_delimiter 8).
Qed.

(** X2: [infinibandValidMAC] accepts exactly the strings made of 8 or of 20
    hex pairs separated by colons. *)
Theorem infinibandValidMAC_accepts (value : string) :
  infinibandValidMAC value = None
  <-> colon_hex 8 value = true \/ colon_hex 20 value = true.
Proof.
  rewrite infinibandValidMAC_ok. split.
  - intros (Hparse & Hlen & Hclean).
    destruct (Net.ParseMAC value) as [hw|] eqn:Hmac; [|discriminate].
    destruct (ParseMAC_colon_form value hw Hmac Hclean) as (_ & Hhex & _).
    pose proof (colon_hex_count _ _ Hhex) as Hcount.
    destruct Hlen as [Hlen|Hlen]; [left | right].
    + replace (length hw) with 8%nat in Hhex by lia. exact Hhex.
    + replace (length hw) with 20%nat in Hhex by lia. exact Hhex.
  - intros [Hhex|Hhex]; (split; [|split]).
    + now apply (ParseMAC_colon_hex 8).
    + left. now rewrite (colon_hex_length 8 value Hhex).
    + now apply (colon_hex_no_delimiter 8).
    + now apply (ParseMAC_colon_hex 20).
    + right. now rewrite (colon_hex_length 20 value Hhex).
    + now apply (colon_hex_no_delimiter 20).
Qed.

Lemma validated_GUID_parses (value : string) :
  infinibandValidGUID value = None ->
  exists guid, Net.ParseMAC value = Ok guid /\ length guid = 8%nat
               /\ Forall (fun b => 0 <= b < 256) guid.
Proof.
  intros Hvalid. apply infinibandValidGUID_ok in Hvalid as (Hparse & Hlen & Hclean).
  destruct (Net.ParseMAC value) as [hw|] eqn:Hmac; [|discriminate].
  destruct (ParseMAC_colon_form value hw Hmac Hclean) as (_ & Hhex & Hall).
  pose proof (colon_hex_count _ _ Hhex).
  exists hw. repeat split; [lia | exact Hall].
Qed.

(** X3: a value accepted by [infinibandValidGUID] parses into 8 bytes, and
    one accepted by [infinibandValidMAC] into 8 or 20 bytes, one byte for
    every three characters; each byte is below 256. *)
Theorem validated_value_bytes (value : string) :
  (infinibandValidGUID value = None ->
   exists guid, Net.ParseMAC value = Ok guid /\ length guid = 8%nat
                /\ Forall (fun b => 0 <= b < 256) guid)
  /\ (infinibandValidMAC value = None ->
      exists hw, Net.ParseMAC value = Ok hw
                 /\ (length hw = 8%nat \/ length hw = 20%nat)
                 /\ (3 * length hw = String.length value + 1)%nat
                 /\ Forall (fun b => 0 <= b < 256) hw).
Proof.
  split.
  - apply validated_GUID_parses.
  - intros Hvalid. apply infinibandValidMAC_ok in Hvalid as (Hparse & Hlen & Hclean).
    destruct (Net.ParseMAC value) as [hw|] eqn:Hmac; [|discriminate].
    destruct (ParseMAC_colon_form value hw Hmac Hclean) as (_ & Hhex & Hall).
    pose proof (colon_hex_count _ _ Hhex).
    exists hw. repeat split; [lia | lia | exact Hall].
Qed.

End AcceptedByValidators.

Lemma infinibandValidGUID_accepts_witness :
  infinibandValidGUID "4A:c8:F9:1b:aa:57:ef:19" = None
  /\ colon_hex 8 "4a:c8:f9:1b:aa:57:ef:19" = true.
Proof.
  split.
  - apply (proj2 (infinibandValidGUID_accepts "4A:c8:F9:1b:aa:57:ef:19")).
    reflexivity.
  - apply (proj1 (infinibandValidGUID_accepts "4a:c8:f9:1b:aa:57:ef:19")).
    reflexivity.
Defined.

Lemma infinibandValidMAC_accepts_witness :
  infinibandValidMAC "a0:00:0f:c0:fe:80:00:00:00:00:00:00:4a:c8:f9:1b:aa:57:ef:19" = None.
Proof.
  apply (proj2 (infinibandValidMAC_accepts
                  "a0:00:0f:c0:fe:80:00:00:00:00:00:00:4a:c8:f9:1b:aa:57:ef:19")).
  right. reflexivity.
Defined.

Lemma validated_value_bytes_witness :
  exists guid, Net.ParseMAC "4a:c8:f9:1b:aa:57:ef:19" = Ok guid /\ length guid = 8%nat
               /\ Forall (fun b => 0 <= b < 256) guid.
Proof.
  apply (proj1 (validated_value_bytes "4a:c8:f9:1b:aa:57:ef:19")). reflexivity.
Defined.

(** ** What the GUID set operations write *)

Section WriteDiscipline.
Context {W : Type} `{Host W}.

(** X4: a GUID set operation makes no link write or one.  A write is only
    made after the current GUID was read and found different from the
    requested one, and it carries the parsed form of the requested GUID,
    for the requested device and VF. *)
Theorem setGUID_write_discipline (ibDev : string) (vfID : Z) (g : string) (s : St W) :
  (events_of (infinibandSetVFNodeGUID ibDev vfID g) s
   = [EvReadFile (node_path ibDev vfID)]
   \/ exists content guid,
        fst (os_ReadFile (node_path ibDev vfID) (world s)) = Ok content
        /\ strings_TrimSpace content <> g
        /\ Net.ParseMAC g = Ok guid
        /\ events_of (infinibandSetVFNodeGUID ibDev vfID g) s
           = [EvReadFile (node_path ibDev vfID); EvLinkSetNodeGUID ibDev guid vfID])
  /\ (events_of (infinibandSetVFPortGUID ibDev vfID g) s
      = [EvReadFile (port_path ibDev vfID)]
      \/ exists content guid,
           fst (os_ReadFile (port_path ibDev vfID) (world s)) = Ok content
           /\ strings_TrimSpace content <> g
           /\ Net.ParseMAC g = Ok guid
           /\ events_of (infinibandSetVFPortGUID ibDev vfID g) s
              = [EvReadFile (port_path ibDev vfID); EvLinkSetPortGUID ibDev guid vfID]).
Proof.
  split.
  - pose proof (infinibandSetVFNodeGUID_run ibDev vfID g s) as Hrun.
    destruct (os_ReadFile _ _) as [[content|err] w]; cbn zeta in Hrun.
    2: { left. apply events_of_app. now rewrite Hrun. }
    destruct (String.eqb_spec (strings_TrimSpace content) g) as [|Hne].
    { left. apply events_of_app. now rewrite Hrun. }
    destruct (Net.ParseMAC g) as [guid|err] eqn:Hparse.
    2: { left. apply events_of_app. now rewrite Hrun. }
    destruct (link_SetNodeGUID _ _ _ _) as [e w'].
    right. exists content, guid. repeat split; auto.
    apply events_of_app. rewrite Hrun. cbn [snd trace after_read].
    now rewrite <- app_assoc.
  - pose proof (infinibandSetVFPortGUID_run ibDev vfID g s) as Hrun.
    destruct (os_ReadFile _ _) as [[content|err] w]; cbn zeta in Hrun.
    2: { left. apply events_of_app. now rewrite Hrun. }
    destruct (String.eqb_spec (strings_TrimSpace content) g) as [|Hne].
    { left. apply events_of_app. now rewrite Hrun. }
    destruct (Net.ParseMAC g) as [guid|err] eqn:Hparse.
    2: { left. apply events_of_app. now rewrite Hrun. }
    destruct (link_SetPortGUID _ _ _ _) as [e w'].
    right. exists content, guid. repeat split; auto.
    apply events_of_app. rewrite Hrun. cbn [snd trace after_read].
    now rewrite <- app_assoc.
Qed.

(** X5: for a GUID accepted by [infinibandValidGUID] that differs from the
    one read back, the set operation always reaches link control, with an
    8-byte GUID, and returns what link control returns. *)
Theorem setGUID_validated_reaches_link (ibDev : string) (vfID : Z) (g : string)
    (s : St W) (content : string) (w : W) :
  infinibandValidGUID g = None ->
  os_ReadFile (node_path ibDev vfID) (world s) = (Ok content, w) ->
  strings_TrimSpace content <> g ->
  exists guid,
    Net.ParseMAC g = Ok guid /\ length guid = 8%nat
    /\ events_of (infinibandSetVFNodeGUID ibDev vfID g) s
       = [EvReadFile (node_path ibDev vfID); EvLinkSetNodeGUID ibDev guid vfID]
    /\ fst (infinibandSetVFNodeGUID ibDev vfID g s)
       = Returned (fst (link_SetNodeGUID ibDev guid vfID w)).
Proof.
  intros Hvalid Hread Hne.
  destruct (validated_GUID_parses g Hvalid) as (guid & Hparse & Hlen & _).
  exists guid. split; [exact Hparse|]. split; [exact Hlen|].
  pose proof (infinibandSetVFNodeGUID_run ibDev vfID g s) as Hrun.
  rewrite Hread, Hparse in Hrun. cbn zeta in Hrun.
  destruct (String.eqb_spec (strings_TrimSpace content) g); [contradiction|].
  destruct (link_SetNodeGUID ibDev guid vfID w) as [e w'].
  split; [|now rewrite Hrun].
  apply events_of_app. rewrite Hrun. cbn [snd trace after_read].
  now rewrite <- app_assoc.
Qed.

End WriteDiscipline.

Lemma setGUID_write_discipline_witness :
  events_of (infinibandSetVFPortGUID "mlx5_0" 3 "not a guid") (Sim.start Sim.healthy)
  = [EvReadFile (port_path "mlx5_0" 3)].
Proof.
  destruct (setGUID_write_discipline "mlx5_0" 3 "not a guid" (Sim.start Sim.healthy))
    as [_ [Hread | (content & guid & _ & _ & Hparse & _)]].
  - exact Hread.
  - discriminate Hparse.
Defined.

Lemma setGUID_validated_reaches_link_witness :
  exists guid,
    Net.ParseMAC "4a:c8:f9:1b:aa:57:ef:19" = Ok guid /\ length guid = 8%nat
    /\ events_of (infinibandSetVFNodeGUID "mlx5_0" 3 "4a:c8:f9:1b:aa:57:ef:19")
                 (Sim.start Sim.healthy)
       = [EvReadFile (node_path "mlx5_0" 3); EvLinkSetNodeGUID "mlx5_0" guid 3]
    /\ fst (infinibandSetVFNodeGUID "mlx5_0" 3 "4a:c8:f9:1b:aa:57:ef:19"
              (Sim.start Sim.healthy))
       = Returned (fst (link_SetNodeGUID "mlx5_0" guid 3 Sim.healthy)).
Proof.
  apply (setGUID_validated_reaches_link "mlx5_0" 3 "4a:c8:f9:1b:aa:57:ef:19"
           (Sim.start Sim.healthy) ("11:22:33:44:55:66:77:88" +:+ Sim.newline)
           Sim.healthy); [reflexivity | reflexivity | discriminate].
Defined.

(** ** What the hardware-address setter hands to the link *)

Section AddressesSet.
Context {W : Type} `{Host W}.

Lemma length_append (a b : string) :
  String.length (a +:+ b) = (String.length a + String.length b)%nat.
Proof.
  induction a as [|c a IH]; [reflexivity|].
  simpl. now f_equal.
Qed.

Lemma take_string_length (n : nat) (s p : string) :
  take_string n s = Some p -> String.length p = n.
Proof.
  revert s p. induction n as [|n IH]; intros s p Ht.
  - destruct s; injection Ht as <-; reflexivity.
  - destruct s as [|c r]; [discriminate|]. cbn [take_string] in Ht.
    destruct (take_string n r) as [q|] eqn:Hq; [|discriminate].
    injection Ht as <-. cbn [String.length]. now rewrite (IH r q Hq).
Qed.

Lemma take_string_append (p b : string) :
  take_string (String.length p) (p +:+ b) = Some p.
Proof.
  induction p as [|c p IH]; [now destruct b|].
  simpl. now rewrite IH.
Qed.

Lemma drop_string_append (p b : string) :
  drop_string (String.length p) (p +:+ b) = b.
Proof.
  induction p as [|c p IH]; [reflexivity|].
  simpl. exact IH.
Qed.

(** The events of the setter, in each of its cases. *)
Lemma infinibandSetDevMAC_events (ibDev hwaddr : string) (s : St W) :
  events_of (infinibandSetDevMAC ibDev hwaddr) s =
  if Nat.eqb (String.length hwaddr) 59 then [EvNetworkSetDevMAC ibDev hwaddr]
  else if Nat.eqb (String.length hwaddr) 23 then
    match fst (host_NetworkGetDevMAC ibDev (world s)) with
    | Ok curHwaddr =>
        match take_string 36 curHwaddr with
        | Some prefix => [EvNetworkGetDevMAC ibDev;
                          EvNetworkSetDevMAC ibDev (prefix +:+ hwaddr)]
        | None => [EvNetworkGetDevMAC ibDev]
        end
    | Fail _ => [EvNetworkGetDevMAC ibDev]
    end
  else [].
Proof.
  destruct (Nat.eqb_spec (String.length hwaddr) 59) as [H59|H59].
  { apply events_of_app. unfold infinibandSetDevMAC. rewrite H59. cbn [Nat.eqb].
    unfold NetworkSetDevMAC. run_host.
    now destruct (host_NetworkSetDevMAC _ _ _). }
  destruct (Nat.eqb_spec (String.length hwaddr) 23) as [H23|H23].
  2: { apply (events_of_unchanged _ s (Returned (Some (Errorf "Invalid length" [])))).
       unfold infinibandSetDevMAC.
       destruct (Nat.eqb_spec (String.length hwaddr) 59); [contradiction|].
       destruct (Nat.eqb_spec (String.length hwaddr) 23); [contradiction|].
       reflexivity. }
  apply events_of_app.
  destruct (host_NetworkGetDevMAC ibDev (world s)) as [[cur|err] w1] eqn:Hget; cbn [fst].
  - rewrite (infinibandSetDevMAC_short_run _ _ _ cur w1 H23 Hget).
    destruct (take_string 36 cur) as [prefix|]; [|reflexivity].
    now destruct (host_NetworkSetDevMAC _ _ _).
  - unfold infinibandSetDevMAC. rewrite H23. cbn [Nat.eqb].
    unfold NetworkGetDevMAC. run_host. now rewrite Hget.
Qed.

(** X6: whatever address the setter hands to the external set operation
    is 59 bytes long and is for the given device.  It is the requested
    address itself, or the first 36 bytes of the current address followed
    by the 23 requested bytes. *)
Theorem infinibandSetDevMAC_sets_59_bytes (ibDev hwaddr : string) (s : St W)
    (dev addr : string) :
  EvNetworkSetDevMAC dev addr ∈ events_of (infinibandSetDevMAC ibDev hwaddr) s ->
  dev = ibDev /\ String.length addr = 59%nat
  /\ (addr = hwaddr
      \/ (String.length hwaddr = 23%nat
          /\ drop_string 36 addr = hwaddr
          /\ exists cur,
               fst (host_NetworkGetDevMAC ibDev (world s)) = Ok cur
               /\ take_string 36 cur = take_string 36 addr)).
Proof.
  rewrite infinibandSetDevMAC_events.
  destruct (Nat.eqb_spec (String.length hwaddr) 59) as [H59|H59].
  { intros Hin. apply list_elem_of_singleton in Hin. injection Hin as -> ->. auto. }
  destruct (Nat.eqb_spec (String.length hwaddr) 23) as [H23|H23].
  2: { intros Hin. now apply elem_of_nil in Hin. }
  destruct (fst (host_NetworkGetDevMAC ibDev (world s))) as [cur|err] eqn:Hget.
  2: { intros Hin. apply list_elem_of_singleton in Hin. discriminate. }
  destruct (take_string 36 cur) as [prefix|] eqn:Hprefix.
  2: { intros Hin. apply list_elem_of_singleton in Hin. discriminate. }
  intros Hin. apply elem_of_cons in Hin as [Hin|Hin]; [discriminate|].
  apply list_elem_of_singleton in Hin. injection Hin as -> ->.
  pose proof (take_string_length _ _ _ Hprefix) as Hlen.
  split; [reflexivity|]. split; [rewrite length_append; lia|].
  right. split; [exact H23|]. rewrite <- Hlen at 1.
  split; [apply drop_string_append|].
  exists cur. split; [reflexivity|].
  rewrite <- Hlen at 2. now rewrite take_string_append.
Qed.

(** X7: setting the same 23-byte form a second time, on a link that
    reports the address it was given, hands the same 59-byte address to
    the set operation again: the kept prefix does not drift. *)
Theorem infinibandSetDevMAC_short_twice (ibDev hwaddr : string) (s : St W)
    (cur : string) (w1 w2 w3 : W) (e1 : option error) :
  String.length hwaddr = 23%nat ->
  (36 <= String.length cur)%nat ->
  host_NetworkGetDevMAC ibDev (world s) = (Ok cur, w1) ->
  host_NetworkSetDevMAC ibDev (String.substring 0 36 cur +:+ hwaddr) w1 = (e1, w2) ->
  host_NetworkGetDevMAC ibDev w2 = (Ok (String.substring 0 36 cur +:+ hwaddr), w3) ->
  events_of (twice (infinibandSetDevMAC ibDev hwaddr)) s
  = [EvNetworkGetDevMAC ibDev;
     EvNetworkSetDevMAC ibDev (String.substring 0 36 cur +:+ hwaddr);
     EvNetworkGetDevMAC ibDev;
     EvNetworkSetDevMAC ibDev (String.substring 0 36 cur +:+ hwaddr)].
Proof.
  intros H23 Hcur Hget Hset Hback.
  set (addr := String.substring 0 36 cur +:+ hwaddr) in *.
  pose proof (take_string_in_range 36 cur Hcur) as Hprefix.
  assert (Hlen : String.length (String.substring 0 36 cur) = 36%nat)
    by (eapply take_string_length; exact Hprefix).
  assert (Hfirst : infinibandSetDevMAC ibDev hwaddr s
                   = (Returned e1, mkSt w2 (trace s ++ [EvNetworkGetDevMAC ibDev;
                                                       EvNetworkSetDevMAC ibDev addr]))).
  { rewrite (infinibandSetDevMAC_short_run _ _ _ cur w1 H23 Hget), Hprefix.
    fold addr. now rewrite Hset. }
  apply events_of_app. rewrite (twice_after _ _ _ _ Hfirst).
  rewrite (infinibandSetDevMAC_short_run ibDev hwaddr
             (mkSt w2 (trace s ++ [EvNetworkGetDevMAC ibDev;
                                   EvNetworkSetDevMAC ibDev addr]))
             addr w3 H23 Hback).
  assert (Hagain : take_string 36 addr = Some (String.substring 0 36 cur)).
  { unfold addr. rewrite <- Hlen at 1. apply take_string_append. }
  rewrite Hagain. fold addr. cbn [trace].
  destruct (host_NetworkSetDevMAC ibDev addr w3) as [e2 w4].
  cbn [snd trace]. now rewrite <- app_assoc.
Qed.

(** X8: an address accepted by [infinibandValidMAC] is of a length the
    setter handles: the setter then starts with an external call (the set
    for 59 bytes, the get for 23), and does not end on the invalid-length
    branch. *)
Theorem infinibandSetDevMAC_validated (ibDev hwaddr : string) (s : St W) :
  infinibandValidMAC hwaddr = None ->
  exists evs,
    events_of (infinibandSetDevMAC ibDev hwaddr) s
    = (if Nat.eqb (String.length hwaddr) 59
       then EvNetworkSetDevMAC ibDev hwaddr
       else EvNetworkGetDevMAC ibDev) :: evs.
Proof.
  intros Hvalid. apply infinibandValidMAC_ok in Hvalid as (_ & Hlen & _).
  rewrite infinibandSetDevMAC_events.
  destruct Hlen as [H23|H59].
  - rewrite H23. cbn [Nat.eqb].
    destruct (fst (host_NetworkGetDevMAC ibDev (world s))) as [cur|err]; [|eauto].
    destruct (take_string 36 cur); eauto.
  - rewrite H59. cbn [Nat.eqb]. eauto.
Qed.

End AddressesSet.

Lemma infinibandSetDevMAC_sets_59_bytes_witness :
  String.length "a0:00:0f:c0:fe:80:00:00:00:00:00:00:11:22:33:44:55:66:77:88" = 59%nat.
Proof.
  apply (infinibandSetDevMAC_sets_59_bytes "ib0" "11:22:33:44:55:66:77:88"
           (Sim.start Sim.healthy) "ib0"
           "a0:00:0f:c0:fe:80:00:00:00:00:00:00:11:22:33:44:55:66:77:88").
  apply elem_of_cons. right. apply list_elem_of_singleton. reflexivity.
Defined.

Lemma infinibandSetDevMAC_short_twice_witness :
  events_of (twice (infinibandSetDevMAC "ib0" "11:22:33:44:55:66:77:88"))
            (Sim.start Sim.healthy)
  = [EvNetworkGetDevMAC "ib0";
     EvNetworkSetDevMAC "ib0"
       "a0:00:0f:c0:fe:80:00:00:00:00:00:00:11:22:33:44:55:66:77:88";
     EvNetworkGetDevMAC "ib0";
     EvNetworkSetDevMAC "ib0"
       "a0:00:0f:c0:fe:80:00:00:00:00:00:00:11:22:33:44:55:66:77:88"].
Proof.
  refine (infinibandSetDevMAC_short_twice "ib0" "11:22:33:44:55:66:77:88"
            (Sim.start Sim.healthy)
            "a0:00:0f:c0:fe:80:00:00:00:00:00:00:4a:c8:f9:1b:aa:57:ef:19"
            Sim.healthy _ _ None eq_refl _ eq_refl eq_refl eq_refl).
  cbn. lia.
Defined.

Lemma infinibandSetDevMAC_validated_witness :
  exists evs,
    events_of (infinibandSetDevMAC "ib0" "11:22:33:44:55:66:77:88")
              (Sim.start Sim.healthy)
    = EvNetworkGetDevMAC "ib0" :: evs.
Proof.
  apply (infinibandSetDevMAC_validated "ib0" "11:22:33:44:55:66:77:88"
           (Sim.start Sim.healthy)).
  reflexivity.
Defined.

(** ** The VF index between snapshot and restore *)

Section RecordedIndex.

Lemma maxVal32_value : Strconv.maxVal32 = 4294967295.
Proof. reflexivity. Qed.

Lemma cutoff10_value : Strconv.cutoff10 = 1844674407370955162.
Proof. reflexivity. Qed.

Lemma uint_val_mono (d : Decimal.uint) (n : Z) : 0 <= n -> n <= uint_val d n.
Proof.
  revert n. induction d; intros n Hn; cbn [uint_val]; [lia | ..];
    (etransitivity; [|apply IHd; lia]); lia.
Qed.

Lemma uint_val_acc (d : Decimal.uint) (acc : positive) :
  uint_val d (Zpos acc) = Zpos (Pos.of_uint_acc d acc).
Proof.
  revert acc. induction d; intros acc; cbn [uint_val Pos.of_uint_acc];
    [reflexivity | ..]; rewrite <- IHd; f_equal; lia.
Qed.

Lemma uint_val_of_uint (d : Decimal.uint) : uint_val d 0 = Z.of_N (Pos.of_uint d).
Proof.
  induction d; cbn [uint_val Pos.of_uint]; [reflexivity | exact IHd | ..];
    cbn [Z.of_N]; rewrite <- uint_val_acc; reflexivity.
Qed.

(** The digit loop on printed digits: the number they write, or a range
    error once it passes 32 bits. *)
Lemma ParseUint_loop_digits (s0 : string) (d : Decimal.uint) (n : Z) :
  0 <= n <= Strconv.maxVal32 ->
  Strconv.ParseUint_loop s0 (NilEmpty.string_of_uint d) n
  = if uint_val d n <=? Strconv.maxVal32 then Ok (uint_val d n)
    else Fail (Strconv.rangeError s0).
Proof.
  revert n. rewrite maxVal32_value.
  assert (Hstep : forall (c : ascii) (k : Z) (rest : string) (d' : Decimal.uint),
             byte_of c = 48 + k -> 0 <= k <= 9 ->
             (forall n, 0 <= n <= 4294967295 ->
                Strconv.ParseUint_loop s0 rest n
                = if uint_val d' n <=? 4294967295 then Ok (uint_val d' n)
                  else Fail (Strconv.rangeError s0)) ->
             forall n, 0 <= n <= 4294967295 ->
               Strconv.ParseUint_loop s0 (String c rest) n
               = if uint_val d' (n * 10 + k) <=? 4294967295
                 then Ok (uint_val d' (n * 10 + k))
                 else Fail (Strconv.rangeError s0)).
  { intros c k rest d' Hc Hk IH n Hn. cbn [Strconv.ParseUint_loop].
    rewrite Hc, cutoff10_value, maxVal32_value.
    destruct (Z.leb_spec 48 (48 + k)); [|lia].
    destruct (Z.leb_spec (48 + k) 57); [|lia]. cbn [andb].
    destruct (Z.leb_spec 1844674407370955162 n); [lia|].
    replace (48 + k - 48) with k by lia.
    destruct (Z.ltb_spec 4294967295 (n * 10 + k)) as [Hbig|Hfit].
    - pose proof (uint_val_mono d' (n * 10 + k)).
      destruct (Z.leb_spec (uint_val d' (n * 10 + k)) 4294967295); [lia | reflexivity].
    - apply IH. lia. }
  induction d; intros n Hn; cbn [NilEmpty.string_of_uint uint_val].
  - cbn [Strconv.ParseUint_loop]. destruct (Z.leb_spec n 4294967295); [reflexivity | lia].
  - apply (Hstep "0"%char 0); auto; lia.
  - apply (Hstep "1"%char 1); auto; lia.
  - apply (Hstep "2"%char 2); auto; lia.
  - apply (Hstep "3"%char 3); auto; lia.
  - apply (Hstep "4"%char 4); auto; lia.
  - apply (Hstep "5"%char 5); auto; lia.
  - apply (Hstep "6"%char 6); auto; lia.
  - apply (Hstep "7"%char 7); auto; lia.
  - apply (Hstep "8"%char 8); auto; lia.
  - apply (Hstep "9"%char 9); auto; lia.
Qed.

Lemma Sprintf_d_nonempty (z : Z) : Sprintf_d z <> "".
Proof.
  unfold Sprintf_d. destruct z as [|p|p]; cbn; try discriminate.
  unfold NilZero.string_of_uint. destruct (Pos.to_uint p); discriminate.
Qed.

Lemma ParseUint_nonempty (s : string) :
  s <> "" -> Strconv.ParseUint_10_32 s = Strconv.ParseUint_loop s s 0.
Proof. destruct s; [contradiction | reflexivity]. Qed.

(** [strconv.ParseUint(fmt.Sprintf("%d", z), 10, 32)]. *)
Lemma ParseUint_Sprintf_d (z : Z) :
  Strconv.ParseUint_10_32 (Sprintf_d z)
  = if z <? 0 then Fail (Strconv.syntaxError (Sprintf_d z))
    else if z <=? Strconv.maxVal32 then Ok z
    else Fail (Strconv.rangeError (Sprintf_d z)).
Proof.
  destruct z as [|p|p].
  - reflexivity.
  - assert (Hs : Sprintf_d (Zpos p) = NilEmpty.string_of_uint (Pos.to_uint p)).
    { unfold Sprintf_d. cbn [Z.to_int NilZero.string_of_int].
      pose proof (DecimalPos.Unsigned.to_uint_nonnil p).
      unfold NilZero.string_of_uint. now destruct (Pos.to_uint p). }
    rewrite (ParseUint_nonempty _ (Sprintf_d_nonempty (Zpos p))).
    rewrite Hs at 2.
    rewrite ParseUint_loop_digits by (rewrite maxVal32_value; lia).
    rewrite uint_val_of_uint, DecimalPos.Unsigned.of_to. reflexivity.
  - unfold Sprintf_d. cbn [Z.to_int NilZero.string_of_int]. reflexivity.
Qed.

End RecordedIndex.

(** ** Snapshot and restore, further *)

Section RecorderFurther.
Context {W : Type} `{Host W}.


Lemma infinibandRestoreGUIDs_convert_failure (hostName : string)
    (volatile : gmap string string) (s : St W) (err : error) :
  map_index volatile "last_state.vf.id" <> "" ->
  Strconv.ParseUint_10_32 (map_index volatile "last_state.vf.id") = Fail err ->
  infinibandRestoreGUIDs hostName volatile s
  = (Returned (Some (restore_convert_error hostName
                       (map_index volatile "last_state.vf.id") err)), s).
Proof.
  intros Hne Hparse. unfold infinibandRestoreGUIDs, nonempty.
  destruct (String.eqb_spec (map_index volatile "last_state.vf.id") "");
    [contradiction|].
  cbn [negb]. rewrite Hparse. reflexivity.
Qed.


(** The ways snapshot ends: it always returns, having read the node file
    or both files, with the index recorded and the two GUIDs recorded
    together or not at all. *)
Lemma infinibandSnapshotGUIDs_cases (hostName : string) (vfID : Z)
    (volatile : gmap string string) (s : St W) :
  let recorded := <[ "last_state.vf.id" := Sprintf_d vfID ]> volatile in
  exists vol' e s',
    infinibandSnapshotGUIDs hostName vfID volatile s = (Returned (vol', e), s')
    /\ ((vol' = recorded /\ e <> None)
        \/ (exists node port,
              vol' = <[ "last_state.vf.port_guid" := port ]>
                       (<[ "last_state.vf.node_guid" := node ]> recorded)
              /\ e = None))
    /\ (trace s' = (trace s ++ [EvReadFile (node_path hostName vfID)])%list
        \/ trace s' = (trace s ++ [EvReadFile (node_path hostName vfID);
                                   EvReadFile (port_path hostName vfID)])%list).
Proof.
  cbn zeta. unfold infinibandSnapshotGUIDs, bind.
  rewrite infinibandGetVFNodeGUID_run.
  destruct (os_ReadFile (node_path hostName vfID) (world s)) as [[node|err] w1].
  2: { eexists _, _, _. split; [reflexivity|]. split; [left; split; [reflexivity | discriminate]|].
       left. reflexivity. }
  rewrite infinibandGetVFPortGUID_run. cbn [world after_read].
  destruct (os_ReadFile (port_path hostName vfID) w1) as [[port|err] w2];
    eexists _, _, _; (split; [reflexivity|]).
  - split; [right; eauto|]. right. unfold after_read. cbn [trace].
    now rewrite <- app_assoc.
  - split; [left; split; [reflexivity | discriminate]|].
    right. unfold after_read. cbn [trace]. now rewrite <- app_assoc.
Qed.

(** X10: snapshot only reads: it makes no link write, and whatever the
    outcome it leaves every key of the store other than its three keys as
    it was. *)
Theorem infinibandSnapshotGUIDs_frame (hostName : string) (vfID : Z)
    (volatile : gmap string string) (s : St W) :
  exists vol' e s',
    infinibandSnapshotGUIDs hostName vfID volatile s = (Returned (vol', e), s')
    /\ guid_writes (events_of (infinibandSnapshotGUIDs hostName vfID volatile) s) = 0%nat
    /\ (forall k, k <> "last_state.vf.id" -> k <> "last_state.vf.node_guid" ->
                  k <> "last_state.vf.port_guid" -> vol' !! k = volatile !! k).
Proof.
  destruct (infinibandSnapshotGUIDs_cases hostName vfID volatile s)
    as (vol' & e & s' & Hrun & Hstore & Htrace).
  exists vol', e, s'. split; [exact Hrun|]. split.
  - destruct Htrace as [Ht|Ht];
      (erewrite events_of_app; [|rewrite Hrun; exact Ht]); reflexivity.
  - intros k Hid Hnode Hport.
    destruct Hstore as [[-> _] | (node & port & -> & _)].
    + now rewrite lookup_insert_ne.
    + now rewrite !lookup_insert_ne.
Qed.

(** X11: the VF index snapshot records is read back by restore as the same
    number exactly when it is between 0 and 2^32 - 1; for any other index
    restore on the recorded store returns its conversion error and calls
    nothing. *)
Theorem snapshot_index_read_back (hostName : string) (vfID : Z)
    (volatile : gmap string string) (s : St W) :
  exists vol' e s',
    infinibandSnapshotGUIDs hostName vfID volatile s = (Returned (vol', e), s')
    /\ map_index vol' "last_state.vf.id" = Sprintf_d vfID
    /\ (0 <= vfID < 2 ^ 32 ->
        Strconv.ParseUint_10_32 (map_index vol' "last_state.vf.id") = Ok vfID)
    /\ (vfID < 0 \/ 2 ^ 32 <= vfID ->
        forall (s1 : St W), exists err,
          infinibandRestoreGUIDs hostName vol' s1
          = (Returned (Some (restore_convert_error hostName (Sprintf_d vfID) err)), s1)).
Proof.
  destruct (infinibandSnapshotGUIDs_cases hostName vfID volatile s)
    as (vol' & e & s' & Hrun & Hstore & _).
  exists vol', e, s'. split; [exact Hrun|].
  assert (Hid : map_index vol' "last_state.vf.id" = Sprintf_d vfID).
  { unfold map_index. destruct Hstore as [[-> _] | (node & port & -> & _)].
    - now rewrite lookup_insert_eq.
    - rewrite !lookup_insert_ne by discriminate. now rewrite lookup_insert_eq. }
  split; [exact Hid|]. rewrite Hid. pose proof (ParseUint_Sprintf_d vfID) as Hparse.
  rewrite maxVal32_value in Hparse. split.
  - intros Hrange. rewrite Hparse.
    destruct (Z.ltb_spec vfID 0); [lia|]. destruct (Z.leb_spec vfID 4294967295); [reflexivity | lia].
  - intros Hout s1.
    assert (Hfail : exists err, Strconv.ParseUint_10_32 (Sprintf_d vfID) = Fail err).
    { rewrite Hparse. destruct (Z.ltb_spec vfID 0); [eauto|].
      destruct (Z.leb_spec vfID 4294967295); [lia | eauto]. }
    destruct Hfail as [err Hfail]. exists err. rewrite <- Hid.
    apply infinibandRestoreGUIDs_convert_failure; rewrite Hid;
      [apply Sprintf_d_nonempty | exact Hfail].
Qed.

End RecorderFurther.


Lemma snapshot_index_read_back_witness :
  exists vol' e s',
    infinibandSnapshotGUIDs "mlx5_0" 3 ∅ (Sim.start Sim.healthy)
    = (Returned (vol', e), s')
    /\ Strconv.ParseUint_10_32 (map_index vol' "last_state.vf.id") = Ok 3.
Proof.
  destruct (snapshot_index_read_back "mlx5_0" 3 ∅ (Sim.start Sim.healthy))
    as (vol' & e & s' & Hrun & _ & Hback & _).
  exists vol', e, s'. split; [exact Hrun|]. apply Hback. lia.
Defined.

Section RestoreFurther.
Context {W : Type} `{Host W}.

(** The run of restore once the index is read, whatever GUIDs the lease
    holds. *)
Lemma infinibandRestoreGUIDs_run_any (hostName : string)
    (volatile : gmap string string) (s : St W) (vfID : Z) :
  Strconv.ParseUint_10_32 (map_index volatile "last_state.vf.id") = Ok vfID ->
  infinibandRestoreGUIDs hostName volatile s =
  match (if nonempty (map_index volatile "last_state.vf.node_guid")
         then infinibandSetVFNodeGUID hostName vfID
                (map_index volatile "last_state.vf.node_guid")
         else ret None) s with
  | (Returned (Some err), s1) =>
      (Returned (Some (restore_node_error hostName vfID
                         (map_index volatile "last_state.vf.node_guid") err)), s1)
  | (Returned None, s1) =>
      match (if nonempty (map_index volatile "last_state.vf.port_guid")
             then infinibandSetVFPortGUID hostName vfID
                    (map_index volatile "last_state.vf.port_guid")
             else ret None) s1 with
      | (Returned (Some err), s2) =>
          (Returned (Some (restore_port_error hostName vfID
                             (map_index volatile "last_state.vf.port_guid") err)), s2)
      | other => other
      end
  | (Panicked msg, s1) => (Panicked msg, s1)
  end.
Proof.
  intros Hparse. unfold infinibandRestoreGUIDs.
  assert (Hid : nonempty (map_index volatile "last_state.vf.id") = true).
  { destruct (map_index volatile "last_state.vf.id"); [discriminate | reflexivity]. }
  rewrite Hid, Hparse. unfold int_of_uint, bind at 1.
  match goal with
  | |- context [(if ?b then ?m else ret None) s] =>
      destruct ((if b then m else ret None) s) as [[[err|]|msg] s1]
  end; try reflexivity.
  unfold bind at 1.
  match goal with
  | |- context [(if ?b then ?m else ret None) s1] =>
      destruct ((if b then m else ret None) s1) as [[[err|]|msg] s2]
  end; reflexivity.
Qed.

(** One set operation, with the trace it leaves. *)
Lemma setNodeGUID_step (ibDev : string) (vfID : Z) (g : string) (s : St W) :
  exists r s1 l,
    infinibandSetVFNodeGUID ibDev vfID g s = (Returned r, s1)
    /\ trace s1 = (trace s ++ l)%list
    /\ (l = [EvReadFile (node_path ibDev vfID)]
        \/ exists guid, Net.ParseMAC g = Ok guid
                        /\ l = [EvReadFile (node_path ibDev vfID);
                                EvLinkSetNodeGUID ibDev guid vfID]).
Proof.
  rewrite infinibandSetVFNodeGUID_run.
  destruct (os_ReadFile _ _) as [[content|err] w]; cbn zeta.
  2: { eexists _, _, _. split; [reflexivity|]. split; [reflexivity | now left]. }
  destruct (String.eqb _ _).
  { eexists _, _, _. split; [reflexivity|]. split; [reflexivity | now left]. }
  destruct (Net.ParseMAC g) as [guid|err] eqn:Hparse.
  2: { eexists _, _, _. split; [reflexivity|]. split; [reflexivity | now left]. }
  destruct (link_SetNodeGUID _ _ _ _) as [e w'].
  exists e, (mkSt w' (trace (after_read (node_path ibDev vfID) w s)
                      ++ [EvLinkSetNodeGUID ibDev guid vfID])),
    [EvReadFile (node_path ibDev vfID); EvLinkSetNodeGUID ibDev guid vfID].
  split; [reflexivity|]. split; [cbn [trace after_read]; now rewrite <- app_assoc|].
  right. eauto.
Qed.

Lemma setPortGUID_step (ibDev : string) (vfID : Z) (g : string) (s : St W) :
  exists r s1 l,
    infinibandSetVFPortGUID ibDev vfID g s = (Returned r, s1)
    /\ trace s1 = (trace s ++ l)%list
    /\ (l = [EvReadFile (port_path ibDev vfID)]
        \/ exists guid, Net.ParseMAC g = Ok guid
                        /\ l = [EvReadFile (port_path ibDev vfID);
                                EvLinkSetPortGUID ibDev guid vfID]).
Proof.
  rewrite infinibandSetVFPortGUID_run.
  destruct (os_ReadFile _ _) as [[content|err] w]; cbn zeta.
  2: { eexists _, _, _. split; [reflexivity|]. split; [reflexivity | now left]. }
  destruct (String.eqb _ _).
  { eexists _, _, _. split; [reflexivity|]. split; [reflexivity | now left]. }
  destruct (Net.ParseMAC g) as [guid|err] eqn:Hparse.
  2: { eexists _, _, _. split; [reflexivity|]. split; [reflexivity | now left]. }
  destruct (link_SetPortGUID _ _ _ _) as [e w'].
  exists e, (mkSt w' (trace (after_read (port_path ibDev vfID) w s)
                      ++ [EvLinkSetPortGUID ibDev guid vfID])),
    [EvReadFile (port_path ibDev vfID); EvLinkSetPortGUID ibDev guid vfID].
  split; [reflexivity|]. split; [cbn [trace after_read]; now rewrite <- app_assoc|].
  right. eauto.
Qed.

(** The events of restore: those of the node GUID, then those of the port
    GUID, each part possibly empty. *)
Lemma infinibandRestoreGUIDs_events (hostName : string)
    (volatile : gmap string string) (s : St W) :
  exists l1 l2,
    events_of (infinibandRestoreGUIDs hostName volatile) s = (l1 ++ l2)%list
    /\ (l1 = []
        \/ exists vfID,
             Strconv.ParseUint_10_32 (map_index volatile "last_state.vf.id") = Ok vfID
             /\ (l1 = [EvReadFile (node_path hostName vfID)]
                 \/ exists guid,
                      Net.ParseMAC (map_index volatile "last_state.vf.node_guid") = Ok guid
                      /\ l1 = [EvReadFile (node_path hostName vfID);
                               EvLinkSetNodeGUID hostName guid vfID]))
    /\ (l2 = []
        \/ exists vfID,
             Strconv.ParseUint_10_32 (map_index volatile "last_state.vf.id") = Ok vfID
             /\ (l2 = [EvReadFile (port_path hostName vfID)]
                 \/ exists guid,
                      Net.ParseMAC (map_index volatile "last_state.vf.port_guid") = Ok guid
                      /\ l2 = [EvReadFile (port_path hostName vfID);
                               EvLinkSetPortGUID hostName guid vfID])).
Proof.
  destruct (nonempty (map_index volatile "last_state.vf.id")) eqn:Hid.
  2: { exists [], []. split; [|auto]. apply (events_of_unchanged _ s (Returned None)).
       unfold infinibandRestoreGUIDs. now rewrite Hid. }
  assert (Hcase : (exists vfID, Strconv.ParseUint_10_32
                                  (map_index volatile "last_state.vf.id") = Ok vfID)
                  \/ (exists err, Strconv.ParseUint_10_32
                                    (map_index volatile "last_state.vf.id") = Fail err)).
  { destruct (Strconv.ParseUint_10_32 (map_index volatile "last_state.vf.id")); eauto. }
  destruct Hcase as [[vfID Hparse] | [err Hparse]].
  2: { exists [], []. split; [|auto]. eapply events_of_unchanged.
       apply infinibandRestoreGUIDs_convert_failure; [|exact Hparse].
       intros Heq. rewrite Heq in Hid. discriminate. }
  pose proof (infinibandRestoreGUIDs_run_any hostName volatile s vfID Hparse) as Hrun.
  assert (Hnode : exists r s1 l1,
             (if nonempty (map_index volatile "last_state.vf.node_guid")
              then infinibandSetVFNodeGUID hostName vfID
                     (map_index volatile "last_state.vf.node_guid")
              else ret None) s = (Returned r, s1)
             /\ trace s1 = (trace s ++ l1)%list
             /\ (l1 = [] \/ l1 = [EvReadFile (node_path hostName vfID)]
                 \/ exists guid,
                      Net.ParseMAC (map_index volatile "last_state.vf.node_guid") = Ok guid
                      /\ l1 = [EvReadFile (node_path hostName vfID);
                               EvLinkSetNodeGUID hostName guid vfID])).
  { destruct (nonempty (map_index volatile "last_state.vf.node_guid")).
    - destruct (setNodeGUID_step hostName vfID
                  (map_index volatile "last_state.vf.node_guid") s)
        as (r & s1 & l & Hr & Ht & Hl).
      exists r, s1, l. tauto.
    - exists None, s, []. rewrite app_nil_r. auto. }
  destruct Hnode as (r1 & s1 & l1 & Hr1 & Ht1 & Hl1). rewrite Hr1 in Hrun.
  assert (Hl1' : l1 = []
                 \/ exists vf,
                      Strconv.ParseUint_10_32 (map_index volatile "last_state.vf.id") = Ok vf
                      /\ (l1 = [EvReadFile (node_path hostName vf)]
                          \/ exists guid,
                               Net.ParseMAC (map_index volatile "last_state.vf.node_guid")
                               = Ok guid
                               /\ l1 = [EvReadFile (node_path hostName vf);
                                        EvLinkSetNodeGUID hostName guid vf])).
  { destruct Hl1 as [?|Hl1]; [now left|]. right. exists vfID.
    split; [exact Hparse | exact Hl1]. }
  destruct r1 as [err|].
  { exists l1, []. split; [|split; [exact Hl1' | now left]]. apply events_of_app.
    rewrite Hrun. cbn [snd]. now rewrite app_nil_r. }
  assert (Hport : exists r s2 l2,
             (if nonempty (map_index volatile "last_state.vf.port_guid")
              then infinibandSetVFPortGUID hostName vfID
                     (map_index volatile "last_state.vf.port_guid")
              else ret None) s1 = (Returned r, s2)
             /\ trace s2 = (trace s1 ++ l2)%list
             /\ (l2 = [] \/ l2 = [EvReadFile (port_path hostName vfID)]
                 \/ exists guid,
                      Net.ParseMAC (map_index volatile "last_state.vf.port_guid") = Ok guid
                      /\ l2 = [EvReadFile (port_path hostName vfID);
                               EvLinkSetPortGUID hostName guid vfID])).
  { destruct (nonempty (map_index volatile "last_state.vf.port_guid")).
    - destruct (setPortGUID_step hostName vfID
                  (map_index volatile "last_state.vf.port_guid") s1)
        as (r & s2 & l & Hr & Ht & Hl).
      exists r, s2, l. tauto.
    - exists None, s1, []. rewrite app_nil_r. auto. }
  destruct Hport as (r2 & s2 & l2 & Hr2 & Ht2 & Hl2). rewrite Hr2 in Hrun.
  exists l1, l2. split; [|split; [exact Hl1'|]].
  - apply events_of_app. rewrite Hrun.
    destruct r2; cbn [snd]; now rewrite Ht2, Ht1, app_assoc.
  - destruct Hl2 as [?|Hl2]; [now left|]. right. exists vfID.
    split; [exact Hparse | exact Hl2].
Qed.

(** X12: every link write restore makes is one of the two recorded GUIDs,
    in parsed form, written to the recorded VF of the given device; there
    are at most two writes. *)
Theorem infinibandRestoreGUIDs_writes (hostName : string)
    (volatile : gmap string string) (s : St W) :
  (forall ev,
     ev ∈ events_of (infinibandRestoreGUIDs hostName volatile) s ->
     is_guid_write ev = true ->
     exists vfID,
       Strconv.ParseUint_10_32 (map_index volatile "last_state.vf.id") = Ok vfID
       /\ ((exists guid,
              Net.ParseMAC (map_index volatile "last_state.vf.node_guid") = Ok guid
              /\ ev = EvLinkSetNodeGUID hostName guid vfID)
           \/ (exists guid,
                 Net.ParseMAC (map_index volatile "last_state.vf.port_guid") = Ok guid
                 /\ ev = EvLinkSetPortGUID hostName guid vfID)))
  /\ (guid_writes (events_of (infinibandRestoreGUIDs hostName volatile) s) <= 2)%nat.
Proof.
  destruct (infinibandRestoreGUIDs_events hostName volatile s)
    as (l1 & l2 & -> & Hl1 & Hl2).
  split.
  - intros ev Hin Hwrite. apply elem_of_app in Hin as [Hin|Hin].
    + destruct Hl1 as [-> | (vfID & Hparse & [-> | (guid & Hmac & ->)])].
      * now apply elem_of_nil in Hin.
      * apply list_elem_of_singleton in Hin. subst ev. discriminate.
      * apply elem_of_cons in Hin as [-> | Hin]; [discriminate|].
        apply list_elem_of_singleton in Hin. subst ev. eauto 8.
    + destruct Hl2 as [-> | (vfID & Hparse & [-> | (guid & Hmac & ->)])].
      * now apply elem_of_nil in Hin.
      * apply list_elem_of_singleton in Hin. subst ev. discriminate.
      * apply elem_of_cons in Hin as [-> | Hin]; [discriminate|].
        apply list_elem_of_singleton in Hin. subst ev. eauto 8.
  - unfold guid_writes. rewrite filter_app, length_app.
    assert (H1 : (length (filter (fun ev => is_guid_write ev = true) l1) <= 1)%nat).
    { destruct Hl1 as [-> | (vfID & _ & [-> | (guid & _ & ->)])];
        (exact (le_0_n 1) || exact (le_n 1)). }
    assert (H2 : (length (filter (fun ev => is_guid_write ev = true) l2) <= 1)%nat).
    { destruct Hl2 as [-> | (vfID & _ & [-> | (guid & _ & ->)])];
        (exact (le_0_n 1) || exact (le_n 1)). }
    lia.
Qed.

End RestoreFurther.

Section RoundTrip.
Context {W : Type} `{Host W}.

(** A set operation whose target is what the file holds, on a host whose
    reads leave it as it is. *)
Lemma setNodeGUID_stable (ibDev : string) (vfID : Z) (content : string) (s : St W) :
  os_ReadFile (node_path ibDev vfID) (world s) = (Ok content, world s) ->
  infinibandSetVFNodeGUID ibDev vfID (strings_TrimSpace content) s
  = (Returned None, mkSt (world s) (trace s ++ [EvReadFile (node_path ibDev vfID)])).
Proof.
  intros Hread.
  exact (setNodeGUID_noop ibDev vfID _ s content (world s) Hread eq_refl).
Qed.

Lemma setPortGUID_stable (ibDev : string) (vfID : Z) (content : string) (s : St W) :
  os_ReadFile (port_path ibDev vfID) (world s) = (Ok content, world s) ->
  infinibandSetVFPortGUID ibDev vfID (strings_TrimSpace content) s
  = (Returned None, mkSt (world s) (trace s ++ [EvReadFile (port_path ibDev vfID)])).
Proof.
  intros Hread.
  exact (setPortGUID_noop ibDev vfID _ s content (world s) Hread eq_refl).
Qed.

(** X13: snapshot followed by restore is a round trip.  With a VF index
    between 0 and 2^32 - 1 and both GUID files readable (reads leaving the
    host as it is), snapshot succeeds and restore on the store it filled
    returns no error, makes no link write and leaves the host as it was. *)
Theorem snapshot_restore_round_trip (hostName : string) (vfID : Z)
    (volatile : gmap string string) (s : St W) (node port : string) :
  0 <= vfID < 2 ^ 32 ->
  os_ReadFile (node_path hostName vfID) (world s) = (Ok node, world s) ->
  os_ReadFile (port_path hostName vfID) (world s) = (Ok port, world s) ->
  exists vol' s1,
    infinibandSnapshotGUIDs hostName vfID volatile s = (Returned (vol', None), s1)
    /\ world s1 = world s
    /\ fst (infinibandRestoreGUIDs hostName vol' s1) = Returned None
    /\ guid_writes (events_of (infinibandRestoreGUIDs hostName vol') s1) = 0%nat
    /\ world (snd (infinibandRestoreGUIDs hostName vol' s1)) = world s.
Proof.
  intros Hrange Hnode Hport.
  set (vol' := <[ "last_state.vf.port_guid" := strings_TrimSpace port ]>
                 (<[ "last_state.vf.node_guid" := strings_TrimSpace node ]>
                    (<[ "last_state.vf.id" := Sprintf_d vfID ]> volatile))).
  set (s1 := after_read (port_path hostName vfID) (world s)
               (after_read (node_path hostName vfID) (world s) s)).
  exists vol', s1.
  assert (Hsnap : infinibandSnapshotGUIDs hostName vfID volatile s
                  = (Returned (vol', None), s1)).
  { unfold infinibandSnapshotGUIDs, bind.
    rewrite infinibandGetVFNodeGUID_run, Hnode, infinibandGetVFPortGUID_run.
    cbn [world after_read]. now rewrite Hport. }
  split; [exact Hsnap|]. split; [reflexivity|].
  assert (Hid : map_index vol' "last_state.vf.id" = Sprintf_d vfID).
  { unfold map_index, vol'. rewrite !lookup_insert_ne by discriminate.
    now rewrite lookup_insert_eq. }
  assert (Hn : map_index vol' "last_state.vf.node_guid" = strings_TrimSpace node).
  { unfold map_index, vol'. rewrite lookup_insert_ne by discriminate.
    now rewrite lookup_insert_eq. }
  assert (Hp : map_index vol' "last_state.vf.port_guid" = strings_TrimSpace port).
  { unfold map_index, vol'. now rewrite lookup_insert_eq. }
  assert (Hparse : Strconv.ParseUint_10_32 (map_index vol' "last_state.vf.id") = Ok vfID).
  { rewrite Hid, ParseUint_Sprintf_d, maxVal32_value.
    destruct (Z.ltb_spec vfID 0); [lia|].
    destruct (Z.leb_spec vfID 4294967295); [reflexivity | lia]. }
  pose proof (infinibandRestoreGUIDs_run_any hostName vol' s1 vfID Hparse) as Hrun.
  rewrite Hn, Hp in Hrun.
  assert (Hstep1 : exists l1,
             (if nonempty (strings_TrimSpace node)
              then infinibandSetVFNodeGUID hostName vfID (strings_TrimSpace node)
              else ret None) s1
             = (Returned None, mkSt (world s) (trace s1 ++ l1))
             /\ (l1 = [] \/ l1 = [EvReadFile (node_path hostName vfID)])).
  { destruct (nonempty (strings_TrimSpace node)).
    - exists [EvReadFile (node_path hostName vfID)]. split; [|now right].
      now apply (setNodeGUID_stable hostName vfID node s1).
    - exists []. split; [|now left]. unfold ret. rewrite app_nil_r. reflexivity. }
  destruct Hstep1 as (l1 & Hstep1 & Hl1). rewrite Hstep1 in Hrun.
  assert (Hstep2 : exists l2,
             (if nonempty (strings_TrimSpace port)
              then infinibandSetVFPortGUID hostName vfID (strings_TrimSpace port)
              else ret None) (mkSt (world s) (trace s1 ++ l1))
             = (Returned None, mkSt (world s) ((trace s1 ++ l1) ++ l2))
             /\ (l2 = [] \/ l2 = [EvReadFile (port_path hostName vfID)])).
  { destruct (nonempty (strings_TrimSpace port)).
    - exists [EvReadFile (port_path hostName vfID)]. split; [|now right].
      now apply (setPortGUID_stable hostName vfID port (mkSt (world s) (trace s1 ++ l1))).
    - exists []. split; [|now left]. unfold ret. rewrite app_nil_r. reflexivity. }
  destruct Hstep2 as (l2 & Hstep2 & Hl2). rewrite Hstep2 in Hrun.
  rewrite Hrun. cbn [fst snd world]. split; [reflexivity|]. split; [|reflexivity].
  rewrite (events_of_app _ s1 (l1 ++ l2));
    [|rewrite Hrun; cbn [snd trace]; now rewrite app_assoc].
  destruct Hl1 as [-> | ->], Hl2 as [-> | ->]; reflexivity.
Qed.

(** X14: restore acts on what the lease holds and on nothing else.  With a
    readable index and neither GUID recorded it calls nothing; with only
    the port GUID recorded its events are those of the port GUID set
    operation, with only the node GUID recorded those of the node GUID set
    operation. *)
Theorem infinibandRestoreGUIDs_partial_lease (hostName : string)
    (volatile : gmap string string) (s : St W) (vfID : Z) :
  Strconv.ParseUint_10_32 (map_index volatile "last_state.vf.id") = Ok vfID ->
  (map_index volatile "last_state.vf.node_guid" = "" ->
   map_index volatile "last_state.vf.port_guid" = "" ->
   infinibandRestoreGUIDs hostName volatile s = (Returned None, s))
  /\ (map_index volatile "last_state.vf.node_guid" = "" ->
      map_index volatile "last_state.vf.port_guid" <> "" ->
      events_of (infinibandRestoreGUIDs hostName volatile) s
      = events_of (infinibandSetVFPortGUID hostName vfID
                     (map_index volatile "last_state.vf.port_guid")) s)
  /\ (map_index volatile "last_state.vf.node_guid" <> "" ->
      map_index volatile "last_state.vf.port_guid" = "" ->
      events_of (infinibandRestoreGUIDs hostName volatile) s
      = events_of (infinibandSetVFNodeGUID hostName vfID
                     (map_index volatile "last_state.vf.node_guid")) s).
Proof.
  intros Hparse.
  pose proof (infinibandRestoreGUIDs_run_any hostName volatile s vfID Hparse) as Hrun.
  unfold nonempty in Hrun. split; [|split].
  - intros Hn Hp. rewrite Hn, Hp in Hrun. exact Hrun.
  - intros Hn Hp. rewrite Hn in Hrun. cbn [String.eqb negb ret] in Hrun.
    destruct (String.eqb_spec (map_index volatile "last_state.vf.port_guid") "");
      [contradiction|].
    cbn [negb] in Hrun. unfold events_of. rewrite Hrun.
    now destruct (infinibandSetVFPortGUID _ _ _ s) as [[[err|]|msg] s2].
  - intros Hn Hp. rewrite Hp in Hrun. cbn [String.eqb negb ret] in Hrun.
    destruct (String.eqb_spec (map_index volatile "last_state.vf.node_guid") "");
      [contradiction|].
    cbn [negb] in Hrun. unfold events_of. rewrite Hrun.
    now destruct (infinibandSetVFNodeGUID _ _ _ s) as [[[err|]|msg] s1].
Qed.

End RoundTrip.

Lemma infinibandSnapshotGUIDs_frame_witness :
  exists vol',
    fst (infinibandSnapshotGUIDs "mlx5_0" 3 {[ "volatile.name" := "ib0" ]}
           (Sim.start Sim.healthy)) = Returned (vol', None)
    /\ vol' !! "volatile.name" = Some "ib0".
Proof.
  destruct (infinibandSnapshotGUIDs_frame "mlx5_0" 3 {[ "volatile.name" := "ib0" ]}
              (Sim.start Sim.healthy)) as (vol' & e & s' & Hrun & _ & Hframe).
  exists vol'. split.
  - rewrite Hrun. cbn [fst]. f_equal. f_equal.
    assert (Hfst : fst (infinibandSnapshotGUIDs "mlx5_0" 3 {[ "volatile.name" := "ib0" ]}
                          (Sim.start Sim.healthy)) = Returned (vol', e))
      by now rewrite Hrun.
    destruct e as [err|]; [|reflexivity]. discriminate Hfst.
  - rewrite Hframe by discriminate. reflexivity.
Defined.

Lemma infinibandRestoreGUIDs_writes_witness :
  (guid_writes (events_of (infinibandRestoreGUIDs "mlx5_0" Sim.lease)
                          (Sim.start Sim.healthy)) <= 2)%nat.
Proof.
  exact (proj2 (infinibandRestoreGUIDs_writes "mlx5_0" Sim.lease (Sim.start Sim.healthy))).
Defined.

Lemma snapshot_restore_round_trip_witness :
  exists vol' s1,
    infinibandSnapshotGUIDs "mlx5_0" 3 ∅ (Sim.start Sim.healthy)
    = (Returned (vol', None), s1)
    /\ world s1 = Sim.healthy
    /\ fst (infinibandRestoreGUIDs "mlx5_0" vol' s1) = Returned None
    /\ guid_writes (events_of (infinibandRestoreGUIDs "mlx5_0" vol') s1) = 0%nat
    /\ world (snd (infinibandRestoreGUIDs "mlx5_0" vol' s1)) = Sim.healthy.
Proof.
  apply (snapshot_restore_round_trip "mlx5_0" 3 ∅ (Sim.start Sim.healthy)
           ("11:22:33:44:55:66:77:88" +:+ Sim.newline)
           ("99:aa:bb:cc:dd:ee:ff:00" +:+ Sim.newline)); [lia | reflexivity | reflexivity].
Defined.

Lemma infinibandRestoreGUIDs_partial_lease_witness :
  infinibandRestoreGUIDs "mlx5_0" {[ "last_state.vf.id" := "3" ]} (Sim.start Sim.healthy)
  = (Returned None, Sim.start Sim.healthy).
Proof.
  apply (infinibandRestoreGUIDs_partial_lease "mlx5_0" {[ "last_state.vf.id" := "3" ]}
           (Sim.start Sim.healthy) 3); reflexivity.
Defined.

(** ** The matcher on any inventory *)

Section MatcherFurther.
Implicit Types (m : gmap string ResourcesNetworkCardPort).
Implicit Types (p port : ResourcesNetworkCardPort).

Lemma insert_keeps m (i k : string) p :
  is_Some (m !! k) -> is_Some (<[ i := p ]> m !! k).
Proof.
  intros Hk. destruct (decide (i = k)) as [->|Hne].
  - rewrite lookup_insert_eq. eauto.
  - now rewrite lookup_insert_ne.
Qed.

(** No scan ever removes an entry. *)
Lemma scanPorts_mono parent ports m k :
  is_Some (m !! k) -> is_Some (scanPorts parent ports m !! k).
Proof.
  revert m. induction ports as [|port ports IH]; intros m Hm; [exact Hm|].
  rewrite scanPorts_cons. apply IH.
  destruct (negb (String.eqb (Protocol port) "infiniband")); [exact Hm|].
  destruct (negb (String.eqb (ID port) parent)); [exact Hm|].
  now apply insert_keeps.
Qed.

Lemma scanVFPorts_mono parent parentDev ports m k :
  is_Some (m !! k) -> is_Some (scanVFPorts parent parentDev ports m !! k).
Proof.
  revert m. induction ports as [|port ports IH]; intros m Hm; [exact Hm|].
  rewrite scanVFPorts_cons. apply IH.
  destruct (negb (String.eqb (Protocol port) "infiniband")); [exact Hm|].
  destruct parentDev as [dev|].
  - destruct (negb (N.eqb (Port dev) (Port port))); [exact Hm | now apply insert_keeps].
  - destruct (negb (String.eqb (ID port) parent)); [exact Hm | now apply insert_keeps].
Qed.

Lemma scanVFs_mono parent parentDev (vfs : list ResourcesNetworkCard) m k :
  is_Some (m !! k) ->
  is_Some (foldl (fun ibDevs VF => scanVFPorts parent parentDev (Ports VF) ibDevs)
                 m vfs !! k).
Proof.
  revert m. induction vfs as [|VF vfs IH]; intros m Hm; [exact Hm|].
  cbn [foldl]. apply IH. now apply scanVFPorts_mono.
Qed.

Lemma scanCard_mono parent card m k :
  is_Some (m !! k) -> is_Some (scanCard parent m card !! k).
Proof.
  intros Hm. unfold scanCard. destruct (SRIOV card) as [sriov|].
  - apply scanVFs_mono. now apply scanPorts_mono.
  - now apply scanPorts_mono.
Qed.

Lemma scanCards_mono parent (cards : list ResourcesNetworkCard) m k :
  is_Some (m !! k) -> is_Some (foldl (scanCard parent) m cards !! k).
Proof.
  revert m. induction cards as [|card cards IH]; intros m Hm; [exact Hm|].
  cbn [foldl]. apply IH. now apply scanCard_mono.
Qed.

(** A VF port that passes the filter is stored. *)
Lemma scanVFPorts_stores parent parentDev ports m p :
  p ∈ ports -> vf_admitted parent parentDev p ->
  is_Some (scanVFPorts parent parentDev ports m !! ID p).
Proof.
  intros Hin [Hproto Hadm]. revert m.
  induction ports as [|port ports IH]; intros m; [now apply elem_of_nil in Hin|].
  rewrite scanVFPorts_cons. apply elem_of_cons in Hin as [<-|Hin]; [|now apply IH].
  apply scanVFPorts_mono. rewrite Hproto, String.eqb_refl. cbn [negb].
  destruct parentDev as [dev|].
  - rewrite Hadm, N.eqb_refl. cbn [negb]. rewrite lookup_insert_eq. eauto.
  - rewrite Hadm, String.eqb_refl. cbn [negb]. subst parent.
    rewrite lookup_insert_eq. eauto.
Qed.

Lemma scanVFs_stores parent parentDev (vfs : list ResourcesNetworkCard) m VF p :
  VF ∈ vfs -> p ∈ Ports VF -> vf_admitted parent parentDev p ->
  is_Some (foldl (fun ibDevs VF => scanVFPorts parent parentDev (Ports VF) ibDevs)
                 m vfs !! ID p).
Proof.
  intros HVF Hin Hadm. revert m.
  induction vfs as [|VF' vfs IH]; intros m; [now apply elem_of_nil in HVF|].
  cbn [foldl]. apply elem_of_cons in HVF as [<-|HVF]; [|now apply IH].
  apply scanVFs_mono. now apply scanVFPorts_stores.
Qed.

Lemma elem_of_concat_map {A B : Type} (f : A -> list B) (l : list A) (y : B) :
  y ∈ concat (map f l) <-> exists x, x ∈ l /\ y ∈ f x.
Proof.
  induction l as [|a l IH]; cbn [map concat].
  - split; [intros Hin; now apply elem_of_nil in Hin|].
    intros (x & Hx & _). now apply elem_of_nil in Hx.
  - rewrite elem_of_app, IH. split.
    + intros [Hy | (x & Hx & Hy)].
      * exists a. split; [apply elem_of_cons; now left | exact Hy].
      * exists x. split; [apply elem_of_cons; now right | exact Hy].
    + intros (x & Hx & Hy). apply elem_of_cons in Hx as [->|Hx]; eauto.
Qed.

(** Where the entries of a card come from. *)
Lemma scanCard_entries parent card m k p :
  scanCard parent m card !! k = Some p ->
  m !! k = Some p
  \/ (p ∈ card_ports card /\ Protocol p = "infiniband" /\ ID p = k).
Proof.
  unfold scanCard, card_ports. intros Hk.
  assert (Hpf : forall q, scanPorts parent (Ports card) m !! k = Some q ->
                          m !! k = Some q
                          \/ (q ∈ Ports card /\ Protocol q = "infiniband" /\ ID q = k)).
  { intros q Hq. apply scanPorts_entries in Hq as [Hq | (Hin & Hproto & Hid & ->)];
      [now left | right; auto]. }
  destruct (SRIOV card) as [sriov|].
  - apply scanVFs_entries in Hk as [Hk | (VF & HVF & Hin & Hid & Hproto & _)].
    + apply Hpf in Hk as [Hk | (Hin & Hrest)]; [now left|].
      right. split; [apply elem_of_app; now left | exact Hrest].
    + right. split; [|auto]. apply elem_of_app. right.
      apply elem_of_concat_map. eauto.
  - apply Hpf in Hk as [Hk | (Hin & Hrest)]; [now left|].
    right. split; [apply elem_of_app; now left | exact Hrest].
Qed.

(** A card with an InfiniBand port named as the parent, of its own or of
    one of its VFs, leaves the parent in the map. *)
Lemma scanCard_finds parent card m p :
  p ∈ card_ports card -> Protocol p = "infiniband" -> ID p = parent ->
  is_Some (scanCard parent m card !! parent).
Proof.
  unfold card_ports, scanCard. intros Hin Hproto Hid.
  apply elem_of_app in Hin as [Hin|Hin].
  - destruct (SRIOV card); [apply scanVFs_mono|]; eapply scanPorts_finds; eauto.
  - destruct (SRIOV card) as [sriov|]; [|now apply elem_of_nil in Hin].
    apply elem_of_concat_map in Hin as (VF & HVF & Hin).
    destruct (scanPorts parent (Ports card) m !! parent) as [dev|] eqn:Hdev.
    + apply scanVFs_mono. rewrite Hdev. eauto.
    + subst parent. eapply scanVFs_stores; eauto. split; [assumption | reflexivity].
Qed.

(** A map that is empty or holds the parent stays so through every scan. *)
Lemma scanPorts_parent_first parent ports m :
  m = ∅ \/ is_Some (m !! parent) ->
  scanPorts parent ports m = ∅ \/ is_Some (scanPorts parent ports m !! parent).
Proof.
  revert m. induction ports as [|port ports IH]; intros m Hm; [exact Hm|].
  rewrite scanPorts_cons. apply IH.
  destruct (negb (String.eqb (Protocol port) "infiniband")); [exact Hm|].
  destruct (String.eqb_spec (ID port) parent) as [Hid|]; cbn [negb]; [|exact Hm].
  right. rewrite Hid, lookup_insert_eq. eauto.
Qed.

Lemma scanVFPorts_parent_first parent ports m :
  m = ∅ \/ is_Some (m !! parent) ->
  scanVFPorts parent None ports m = ∅
  \/ is_Some (scanVFPorts parent None ports m !! parent).
Proof.
  revert m. induction ports as [|port ports IH]; intros m Hm; [exact Hm|].
  rewrite scanVFPorts_cons. apply IH.
  destruct (negb (String.eqb (Protocol port) "infiniband")); [exact Hm|].
  destruct (String.eqb_spec (ID port) parent) as [Hid|]; cbn [negb]; [|exact Hm].
  right. rewrite Hid, lookup_insert_eq. eauto.
Qed.

Lemma scanVFs_parent_first parent (vfs : list ResourcesNetworkCard) m :
  m = ∅ \/ is_Some (m !! parent) ->
  foldl (fun ibDevs VF => scanVFPorts parent None (Ports VF) ibDevs) m vfs = ∅
  \/ is_Some (foldl (fun ibDevs VF => scanVFPorts parent None (Ports VF) ibDevs)
                    m vfs !! parent).
Proof.
  revert m. induction vfs as [|VF vfs IH]; intros m Hm; [exact Hm|].
  cbn [foldl]. apply IH. now apply scanVFPorts_parent_first.
Qed.

Lemma scanCard_parent_first parent card m :
  m = ∅ \/ is_Some (m !! parent) ->
  scanCard parent m card = ∅ \/ is_Some (scanCard parent m card !! parent).
Proof.
  intros Hm. unfold scanCard.
  destruct (SRIOV card) as [sriov|]; [|now apply scanPorts_parent_first].
  destruct (scanPorts parent (Ports card) m !! parent) as [dev|] eqn:Hdev.
  - right. apply scanVFs_mono. rewrite Hdev. eauto.
  - apply scanVFs_parent_first. now apply scanPorts_parent_first.
Qed.

Lemma scanCards_parent_first parent (cards : list ResourcesNetworkCard) m :
  m = ∅ \/ is_Some (m !! parent) ->
  foldl (scanCard parent) m cards = ∅
  \/ is_Some (foldl (scanCard parent) m cards !! parent).
Proof.
  revert m. induction cards as [|card cards IH]; intros m Hm; [exact Hm|].
  cbn [foldl]. apply IH. now apply scanCard_parent_first.
Qed.

Lemma scanCards_entries parent (cards : list ResourcesNetworkCard) m k p :
  foldl (scanCard parent) m cards !! k = Some p ->
  m !! k = Some p
  \/ (p ∈ concat (map card_ports cards) /\ Protocol p = "infiniband" /\ ID p = k).
Proof.
  revert m. induction cards as [|card cards IH]; intros m Hk; [now left|].
  cbn [foldl] in Hk. cbn [map concat].
  apply IH in Hk as [Hk | (Hin & Hrest)].
  - apply scanCard_entries in Hk as [Hk | (Hin & Hrest)]; [now left|].
    right. split; [apply elem_of_app; now left | exact Hrest].
  - right. split; [apply elem_of_app; now right | exact Hrest].
Qed.

Lemma scanCards_finds parent (cards : list ResourcesNetworkCard) m p :
  p ∈ concat (map card_ports cards) -> Protocol p = "infiniband" -> ID p = parent ->
  is_Some (foldl (scanCard parent) m cards !! parent).
Proof.
  intros Hin Hproto Hid. revert m.
  induction cards as [|card cards IH]; intros m;
    [now apply elem_of_nil in Hin|].
  cbn [map concat] in Hin. cbn [foldl].
  apply elem_of_app in Hin as [Hin|Hin]; [|now apply IH].
  apply scanCards_mono. eapply scanCard_finds; eauto.
Qed.

(** X15: every entry of the result is an InfiniBand port of the inventory
    (a port of a card or of one of its VFs), stored under its own
    identifier. *)
Theorem infinibandDevices_from_inventory (nics : ResourcesNetwork)
    (parent k : string) p :
  infinibandDevices nics parent !! k = Some p ->
  p ∈ inventory_ports nics /\ Protocol p = "infiniband" /\ ID p = k.
Proof.
  intros Hk. apply scanCards_entries in Hk as [Hk | Hk]; [|exact Hk].
  rewrite lookup_empty in Hk. discriminate.
Qed.

(** X16: the result holds an entry for the parent exactly when some
    InfiniBand port of the inventory bears the parent's name, and it is
    empty exactly when none does: a result that is not empty always holds
    the parent. *)
Theorem infinibandDevices_parent (nics : ResourcesNetwork) (parent : string) :
  (is_Some (infinibandDevices nics parent !! parent)
   <-> exists p, p ∈ inventory_ports nics /\ Protocol p = "infiniband"
                 /\ ID p = parent)
  /\ (infinibandDevices nics parent = ∅
      <-> forall p, p ∈ inventory_ports nics -> Protocol p = "infiniband" ->
                    ID p <> parent).
Proof.
  assert (Hfound : is_Some (infinibandDevices nics parent !! parent)
                   <-> exists p, p ∈ inventory_ports nics /\ Protocol p = "infiniband"
                                 /\ ID p = parent).
  { split.
    - intros [p Hp]. exists p.
      apply scanCards_entries in Hp as [Hp | Hp]; [|exact Hp].
      rewrite lookup_empty in Hp. discriminate.
    - intros (p & Hin & Hproto & Hid). eapply scanCards_finds; eauto. }
  split; [exact Hfound|]. split.
  - intros Hempty p Hin Hproto Hid.
    assert (Hsome : is_Some (infinibandDevices nics parent !! parent))
      by (apply Hfound; eauto).
    rewrite Hempty, lookup_empty in Hsome. now destruct Hsome.
  - intros Hnone.
    destruct (scanCards_parent_first parent (Cards nics) ∅) as [Hempty | Hsome];
      [now left | exact Hempty |].
    apply Hfound in Hsome as (p & Hin & Hproto & Hid). now apply Hnone in Hid.
Qed.

(** X17: on a card whose InfiniBand ports named as the parent all sit on
    port number [n], every InfiniBand port of its VFs on port number [n]
    is in the result of the one-card inventory. *)
Theorem infinibandDevices_one_card_complete (card : ResourcesNetworkCard)
    (sriov : ResourcesNetworkCardSRIOV) (parent : string) (n : N)
    (pf : ResourcesNetworkCardPort) (VF : ResourcesNetworkCard) p :
  SRIOV card = Some sriov ->
  pf ∈ Ports card -> Protocol pf = "infiniband" -> ID pf = parent ->
  (forall q, q ∈ Ports card -> Protocol q = "infiniband" -> ID q = parent ->
             Port q = n) ->
  VF ∈ VFs sriov -> p ∈ Ports VF -> Protocol p = "infiniband" -> Port p = n ->
  is_Some (infinibandDevices (mkNetwork [card]) parent !! ID p).
Proof.
  intros Hsriov Hpf Hpfproto Hpfid Hsame HVF Hin Hproto Hport.
  unfold infinibandDevices. cbn [Cards foldl]. unfold scanCard. rewrite Hsriov.
  destruct (scanPorts_finds parent (Ports card) ∅ pf Hpf Hpfproto Hpfid) as [dev Hdev].
  rewrite Hdev. eapply scanVFs_stores; eauto. split; [exact Hproto|].
  apply scanPorts_entries in Hdev as [Hdev | (Hdin & Hdproto & Hdid & _)].
  - rewrite lookup_empty in Hdev. discriminate.
  - rewrite (Hsame dev Hdin Hdproto Hdid). now symmetry.
Qed.

End MatcherFurther.

Lemma infinibandDevices_from_inventory_witness :
  Sim.ib_port "v1" 1 ∈ inventory_ports Sim.one_card.
Proof.
  apply (infinibandDevices_from_inventory Sim.one_card "p1" "v1" (Sim.ib_port "v1" 1)).
  reflexivity.
Defined.

Lemma infinibandDevices_parent_witness :
  infinibandDevices Sim.two_cards "nosuch" = ∅
  /\ is_Some (infinibandDevices Sim.two_cards "w1" !! "w1").
Proof.
  split.
  - apply (proj2 (infinibandDevices_parent Sim.two_cards "nosuch")).
    intros p Hin _ Hid. cbn in Hin.
    repeat (apply elem_of_cons in Hin as [->|Hin]; [discriminate Hid|]).
    now apply elem_of_nil in Hin.
  - apply (proj1 (infinibandDevices_parent Sim.two_cards "w1")).
    exists (Sim.ib_port "w1" 1). split; [|split; reflexivity].
    cbn. do 4 (apply elem_of_cons; right). apply elem_of_cons. now left.
Defined.

Lemma infinibandDevices_one_card_complete_witness :
  is_Some (infinibandDevices Sim.one_card "p1" !! "v1").
Proof.
  apply (infinibandDevices_one_card_complete Sim.cardX
           (mkSRIOV [Sim.vf_card (Sim.ib_port "v1" 1); Sim.vf_card (Sim.ib_port "v2" 2)])
           "p1" 1 (Sim.ib_port "p1" 1) (Sim.vf_card (Sim.ib_port "v1" 1))
           (Sim.ib_port "v1" 1)); try reflexivity.
  - apply list_elem_of_singleton. reflexivity.
  - intros q Hq _ _. apply list_elem_of_singleton in Hq. now subst q.
  - apply elem_of_cons. now left.
  - apply list_elem_of_singleton. reflexivity.
Defined.

Lemma infinibandDevices_one_card_witness :
  Protocol (Sim.ib_port "v1" 1) = "infiniband" /\ ID (Sim.ib_port "v1" 1) = "v1"
  /\ ((Sim.ib_port "v1" 1 ∈ Ports Sim.cardX /\ ID (Sim.ib_port "v1" 1) = "p1")
      \/ (exists sriov VF,
            SRIOV Sim.cardX = Some sriov /\ VF ∈ VFs sriov
            /\ Sim.ib_port "v1" 1 ∈ Ports VF
            /\ ((exists pf, pf ∈ Ports Sim.cardX /\ Protocol pf = "infiniband"
                            /\ ID pf = "p1" /\ Port pf = Port (Sim.ib_port "v1" 1))
                \/ ((forall pf, pf ∈ Ports Sim.cardX -> Protocol pf = "infiniband" ->
                                ID pf <> "p1")
                    /\ ID (Sim.ib_port "v1" 1) = "p1")))).
Proof.
  exact (infinibandDevices_one_card Sim.cardX "p1" "v1" (Sim.ib_port "v1" 1) eq_refl).
Defined.

Section MatcherInventory.
Implicit Types (m : gmap string ResourcesNetworkCardPort).
Implicit Types (p port : ResourcesNetworkCardPort).

Lemma scanCard_entries_vf parent card m k p :
  scanCard parent m card !! k = Some p ->
  m !! k = Some p \/ k = parent
  \/ (exists sriov VF, SRIOV card = Some sriov /\ VF ∈ VFs sriov /\ p ∈ Ports VF).
Proof.
  unfold scanCard. intros Hk.
  assert (Hpf : forall q, scanPorts parent (Ports card) m !! k = Some q ->
                          m !! k = Some q \/ k = parent).
  { intros q Hq. apply scanPorts_entries in Hq as [Hq | (_ & _ & _ & ->)]; auto. }
  destruct (SRIOV card) as [sriov|].
  - apply scanVFs_entries in Hk as [Hk | (VF & HVF & Hin & _)].
    + apply Hpf in Hk as [Hk | Hk]; auto.
    + right. right. eauto.
  - apply Hpf in Hk as [Hk | Hk]; auto.
Qed.

(** X18: whatever the result holds under a name other than the parent's is
    a port of a virtual function of some card with SR-IOV; so on an
    inventory without SR-IOV the result has no key but the parent. *)
Theorem infinibandDevices_others_are_VFs (nics : ResourcesNetwork)
    (parent k : string) p :
  infinibandDevices nics parent !! k = Some p -> k <> parent ->
  exists card sriov VF,
    card ∈ Cards nics /\ SRIOV card = Some sriov /\ VF ∈ VFs sriov /\ p ∈ Ports VF.
Proof.
  unfold infinibandDevices. intros Hk Hne.
  assert (Hgen : forall cards m,
             foldl (scanCard parent) m cards !! k = Some p ->
             m !! k = Some p
             \/ exists card sriov VF,
                  card ∈ cards /\ SRIOV card = Some sriov /\ VF ∈ VFs sriov
                  /\ p ∈ Ports VF).
  { induction cards as [|card cards IH]; intros m Hm; [now left|].
    cbn [foldl] in Hm. apply IH in Hm as [Hm | (c & sr & VF & Hc & Hrest)].
    - apply scanCard_entries_vf in Hm as [Hm | [Hm | (sr & VF & Hrest)]];
        [now left | contradiction |].
      right. exists card, sr, VF. split; [apply elem_of_cons; now left | exact Hrest].
    - right. exists c, sr, VF. split; [apply elem_of_cons; now right | exact Hrest]. }
  apply Hgen in Hk as [Hk | Hk]; [|exact Hk].
  rewrite lookup_empty in Hk. discriminate.
Qed.

(** X19: cards added at the end of the inventory never remove a match:
    every key of the result on the shorter inventory is a key of the
    result on the longer one. *)
Theorem infinibandDevices_more_cards (cards more : list ResourcesNetworkCard)
    (parent k : string) :
  is_Some (infinibandDevices (mkNetwork cards) parent !! k) ->
  is_Some (infinibandDevices (mkNetwork (cards ++ more)) parent !! k).
Proof.
  unfold infinibandDevices. cbn [Cards]. rewrite foldl_app. apply scanCards_mono.
Qed.

End MatcherInventory.

Lemma infinibandDevices_others_are_VFs_witness :
  exists card sriov VF,
    card ∈ Cards Sim.two_cards /\ SRIOV card = Some sriov /\ VF ∈ VFs sriov
    /\ Sim.ib_port "w2" 2 ∈ Ports VF.
Proof.
  apply (infinibandDevices_others_are_VFs Sim.two_cards "v2" "w2" (Sim.ib_port "w2" 2));
    [reflexivity | discriminate].
Defined.

Lemma infinibandDevices_more_cards_witness :
  is_Some (infinibandDevices Sim.two_cards "p1" !! "v1").
Proof.
  apply (infinibandDevices_more_cards [Sim.cardX] [Sim.cardY] "p1" "v1").
  exists (Sim.ib_port "v1" 1). reflexivity.
Defined.

(** ** The provisioner's calls *)

Section ProvisionerCalls.
Context {W : Type} `{Host W}.

Lemma provision_in_order_first (devicesPath deviceName name : string)
    (rest : list string) (s : St W) :
  exists evs,
    events_of (provision_in_order devicesPath deviceName (name :: rest)) s
    = setup_event devicesPath deviceName name :: evs.
Proof.
  pose proof (provision_in_order_step devicesPath deviceName name rest s) as Hstep.
  destruct (host_unixDeviceSetup _ _ _ _ _ _) as [[err|] w1]; cbn zeta in Hstep.
  - exists []. apply events_of_app. now rewrite Hstep.
  - destruct (provision_in_order_prefix devicesPath deviceName rest
                (mkSt w1 (trace s ++ [setup_event devicesPath deviceName name])))
      as (k & e & s' & Hrun & Htrace & _).
    eexists. apply events_of_app. rewrite Hstep, Hrun. cbn [snd].
    rewrite Htrace. cbn [trace]. now rewrite <- app_assoc.
Qed.

(** X20: the provisioner makes at most three device-setup calls and no
    other call.  It makes none exactly when the port has no InfiniBand
    payload or all three names are empty; in the latter case it returns
    no error. *)
Theorem infinibandAddDevices_calls (devicesPath deviceName : string)
    (ibDev : ResourcesNetworkCardPort) (s : St W) :
  (length (events_of (infinibandAddDevices devicesPath deviceName ibDev) s) <= 3)%nat
  /\ device_setups (events_of (infinibandAddDevices devicesPath deviceName ibDev) s)
     = length (events_of (infinibandAddDevices devicesPath deviceName ibDev) s)
  /\ (events_of (infinibandAddDevices devicesPath deviceName ibDev) s = []
      <-> Infiniband ibDev = None
          \/ exists ib, Infiniband ibDev = Some ib
                        /\ IsSMName ib = "" /\ MADName ib = "" /\ VerbName ib = "")
  /\ (forall ib, Infiniband ibDev = Some ib ->
        IsSMName ib = "" -> MADName ib = "" -> VerbName ib = "" ->
        infinibandAddDevices devicesPath deviceName ibDev s = (Returned None, s)).
Proof.
  destruct (Infiniband ibDev) as [ib|] eqn:Hib.
  2: { assert (Hrun : infinibandAddDevices devicesPath deviceName ibDev s
                      = (Returned (Some (Errorf "No infiniband devices supplied" [])), s)).
       { unfold infinibandAddDevices. now rewrite Hib. }
       rewrite (events_of_unchanged _ s _ Hrun).
       repeat split; auto; discriminate. }
  assert (Hsame : events_of (infinibandAddDevices devicesPath deviceName ibDev) s
                  = events_of (provision_in_order devicesPath deviceName (present_names ib)) s).
  { unfold events_of. now rewrite (infinibandAddDevices_refines _ _ ibDev ib s Hib). }
  destruct (provision_in_order_prefix devicesPath deviceName (present_names ib) s)
    as (k & e & s' & Hrun & Htrace & Hk & _).
  assert (Hev : events_of (provision_in_order devicesPath deviceName (present_names ib)) s
                = map (setup_event devicesPath deviceName) (take k (present_names ib))).
  { apply events_of_app. now rewrite Hrun. }
  assert (Hnames : (length (present_names ib) <= 3)%nat).
  { unfold present_names. cbn [List.filter].
    destruct (nonempty (IsSMName ib)), (nonempty (MADName ib)), (nonempty (VerbName ib));
      cbn; lia. }
  rewrite Hsame. split; [|split; [|split]].
  - rewrite Hev, length_map, length_take. lia.
  - rewrite Hev. generalize (take k (present_names ib)) as names.
    induction names as [|name names IH]; [reflexivity|].
    cbn [map length]. rewrite <- IH. reflexivity.
  - split.
    + intros Hnone. right. exists ib. split; [reflexivity|].
      unfold present_names, nonempty in *. cbn [List.filter] in *.
      destruct (String.eqb_spec (IsSMName ib) "") as [Hsm|];
        cbn [negb] in *.
      2: { destruct (provision_in_order_first devicesPath deviceName (IsSMName ib)
                       (List.filter (fun s0 => negb (String.eqb s0 ""))
                                    [MADName ib; VerbName ib]) s) as [evs Hfirst].
           cbn [List.filter] in Hfirst. rewrite Hfirst in Hnone. discriminate. }
      destruct (String.eqb_spec (MADName ib) "") as [Hmad|]; cbn [negb] in *.
      2: { destruct (provision_in_order_first devicesPath deviceName (MADName ib)
                       (List.filter (fun s0 => negb (String.eqb s0 ""))
                                    [VerbName ib]) s) as [evs Hfirst].
           cbn [List.filter] in Hfirst. rewrite Hfirst in Hnone. discriminate. }
      destruct (String.eqb_spec (VerbName ib) "") as [Hverb|]; cbn [negb] in *.
      2: { destruct (provision_in_order_first devicesPath deviceName (VerbName ib) [] s)
             as [evs Hfirst].
           rewrite Hfirst in Hnone. discriminate. }
      auto.
    + intros [Habs | (ib' & [= <-] & Hsm & Hmad & Hverb)]; [discriminate|].
      apply (events_of_unchanged _ s (Returned None)).
      unfold present_names. now rewrite Hsm, Hmad, Hverb.
  - intros ib' [= <-] Hsm Hmad Hverb.
    rewrite (infinibandAddDevices_refines _ _ ibDev ib s Hib).
    unfold present_names. now rewrite Hsm, Hmad, Hverb.
Qed.

End ProvisionerCalls.

Lemma infinibandAddDevices_calls_witness :
  infinibandAddDevices "/var/lib/incus/devices/c1" "ib0"
    (mkPort "p1" 1 "infiniband" (Some (mkInfiniband "" "" "")))
    (Sim.start Sim.healthy)
  = (Returned None, Sim.start Sim.healthy).
Proof.
  destruct (infinibandAddDevices_calls "/var/lib/incus/devices/c1" "ib0"
              (mkPort "p1" 1 "infiniband" (Some (mkInfiniband "" "" "")))
              (Sim.start Sim.healthy)) as (_ & _ & _ & Hnone).
  apply (Hnone (mkInfiniband "" "" "")); reflexivity.
Defined.
